(** * Batch-scan service: a shallow embedding of [scan_service.py]

    The development follows the layout of the Python service:
    - the filter engine ([ScanService.filter_buy_points]) with the tag
      extraction it performs through a regular expression;
    - the universe resolver ([get_all_stocks], [get_stocks_by_boards],
      [get_stock_list]);
    - the task record ([ScanTask]) with its derived readings;
    - task creation ([ScanService.start_scan]) and [cancel_scan] on the
      in-process registry;
    - the scheduler ([ScanService._run_scan]) together with the pool
      workers ([scan_single_stock]) and concurrent [cancel_scan] calls, as a
      labelled transition system whose steps are the statements of the
      source.

    Logging is not modelled.  The analysis engine, the catalog query, the
    store, [uuid4], the wall clock and [datetime.strptime] are inputs. *)

From Stdlib Require Import ZArith Ascii String List Bool Lia PrimFloat.
From stdpp Require Import base option gmap strings list.

Open Scope string_scope.
Open Scope list_scope.
Open Scope nat_scope.

(** ** Text helpers *)

(** [re.findall(r"'([^']+)'", s)]: the non-empty runs of characters that
    stand between two single quotes, scanning from the left; a closing quote
    is consumed by the match it ends.  [acc] is [Some g] while a match that
    began at an earlier quote is open with group [g]. *)
Fixpoint findall_quoted_from (acc : option string) (s : string) : list string :=
  match s with
  | EmptyString => []
  | String c rest =>
      if Ascii.eqb c "'"%char then
        match acc with
        | Some EmptyString => findall_quoted_from (Some EmptyString) rest
        | Some g => g :: findall_quoted_from None rest
        | None => findall_quoted_from (Some EmptyString) rest
        end
      else
        match acc with
        | Some g => findall_quoted_from (Some (g ++ String c EmptyString)%string) rest
        | None => findall_quoted_from None rest
        end
  end.

Definition findall_quoted (s : string) : list string :=
  findall_quoted_from None s.

(** [t in xs] for a list of strings. *)
Definition str_in (t : string) (xs : list string) : bool :=
  bool_decide (t ∈ xs).

(** ** Naive datetimes

    A naive [datetime] is the number of microseconds since
    0001-01-01 00:00:00; [datetime.max] is 9999-12-31 23:59:59.999999. *)

Definition US_PER_DAY : Z := 86400000000.
Definition MAX_ORDINAL_DAYS : Z := 3652059.
Definition DATETIME_MAX : Z := MAX_ORDINAL_DAYS * US_PER_DAY - 1.
Definition MAX_DELTA_DAYS : Z := 999999999.

(** [timedelta(days=d)]: [OverflowError] beyond 999999999 days. *)
Definition timedelta_days (d : Z) : option Z :=
  if (Z.abs d <=? MAX_DELTA_DAYS)%Z then Some (d * US_PER_DAY)%Z else None.

(** [dt - delta]: [OverflowError] when the result leaves the datetime range. *)
Definition datetime_sub (dt delta : Z) : option Z :=
  let r := (dt - delta)%Z in
  if ((0 <=? r) && (r <=? DATETIME_MAX))%Z then Some r else None.

(** [datetime.now() - timedelta(days=time_window_days)] *)
Definition cutoff_time (now time_window_days : Z) : option Z :=
  delta ← timedelta_days time_window_days;
  datetime_sub now delta.

(** ** Schemas ([app/models/schemas.py]) *)

Module BSPoint.
Record t := mk
  { type : string;
    time : string;
    value : float;
    klu_idx : Z;
    is_buy : bool }.

(** [bsp.type = v] *)
Definition set_type (v : string) (p : t) : t :=
  {| type := v; time := time p; value := value p;
     klu_idx := klu_idx p; is_buy := is_buy p |}.
End BSPoint.

Module ScanResultItem.
Record t := mk
  { code : string;
    name : option string;
    bsp_type : string;
    bsp_time : string;
    bsp_value : float;
    is_buy : bool;
    kline_type : string }.
End ScanResultItem.

Module ScanRequest.
Record t := mk
  { stock_pool : string;
    boards : option (list string);
    stock_codes : option (list string);
    kline_type : string;
    bsp_types : list string;
    time_window_days : Z;
    limit : Z }.
End ScanRequest.

(** The part of [ChanResponse] the scan reads. *)
Module ChanResponse.
Record t := mk
  { name : option string;
    bs_points : list BSPoint.t }.
End ChanResponse.

(** ** Filter engine

    [filter_buy_points] assigns to [bsp.type] on the objects of the list it
    is given and returns a list of those same objects.  Objects live in a
    store indexed by address; a Python list is a list of addresses, so two
    positions may hold the same object. *)

Definition heap := nat -> BSPoint.t.

Definition heap_set_type (h : heap) (a : nat) (v : string) : heap :=
  fun b => if Nat.eqb b a then BSPoint.set_type v (h a) else h b.

(** The tag values read from [str(raw_type)]: the quoted values when there
    are any, the whole text otherwise. *)
Definition bsp_type_values (raw_type : string) : list string :=
  match findall_quoted raw_type with
  | [] => [raw_type]
  | matches => matches
  end.

(** [any(t in bsp_types for t in bsp_type_values)] *)
Definition type_matched (bsp_types vals : list string) : bool :=
  existsb (fun t => str_in t bsp_types) vals.

(** The [for t in bsp_types: if t in bsp_type_values: ...; break] loop. *)
Definition first_requested (bsp_types vals : list string) : option string :=
  List.find (fun t => str_in t vals) bsp_types.

(** The assignment to [bsp.type] made once [type_matched] holds. *)
Definition rewrite_type (bsp_types vals : list string) (h : heap) (a : nat) : heap :=
  if (1 <? length vals)%nat then
    match first_requested bsp_types vals with
    | Some t => heap_set_type h a t
    | None => h
    end
  else
    match vals with
    | v :: _ => heap_set_type h a v
    | [] => h
    end.

Section Filter.
(** [datetime.strptime(s, "%Y/%m/%d %H:%M")]; [None] is [ValueError]. *)
Variable strptime : string -> option Z.

(** One iteration of the loop over [bs_points]: the store afterwards and
    whether the object was appended to [recent_buy_points]. *)
Definition filter_visit (bsp_types : list string) (cutoff : Z)
    (h : heap) (a : nat) : heap * bool :=
  if negb (BSPoint.is_buy (h a)) then (h, false)
  else
    let vals := bsp_type_values (BSPoint.type (h a)) in
    if negb (type_matched bsp_types vals) then (h, false)
    else
      let h' := rewrite_type bsp_types vals h a in
      match strptime (BSPoint.time (h' a)) with
      | None => (h', false)
      | Some bsp_time => (h', (cutoff <=? bsp_time)%Z)
      end.

Fixpoint filter_loop (bsp_types : list string) (cutoff : Z)
    (h : heap) (bs_points : list nat) : heap * list nat :=
  match bs_points with
  | [] => (h, [])
  | a :: rest =>
      let '(h1, keep) := filter_visit bsp_types cutoff h a in
      let '(h2, out) := filter_loop bsp_types cutoff h1 rest in
      (h2, if keep then a :: out else out)
  end.

(** [ScanService.filter_buy_points]; [None] is the [OverflowError] of the
    cutoff computation, which the function does not catch. *)
Definition filter_buy_points (now : Z) (h : heap) (bs_points : list nat)
    (bsp_types : list string) (time_window_days : Z)
    : option (heap * list nat) :=
  cutoff ← cutoff_time now time_window_days;
  Some (filter_loop bsp_types cutoff h bs_points).
End Filter.

(** ** A concrete [strptime] for the format ["%Y/%m/%d %H:%M"]

    The format compiles to the pattern
    [(\d\d\d\d)/(1[0-2]|0[1-9]|[1-9])/(3[01]|[12]\d|0[1-9]|[1-9]| [1-9])\s+(2[0-3]|[0-1]\d|\d):([0-5]\d|\d)],
    which must cover the whole text; the date must exist.  Characters are
    ASCII here. *)

Definition digit_of (c : ascii) : option Z :=
  let n := Z.of_N (N_of_ascii c) in
  if ((48 <=? n) && (n <=? 57))%Z then Some (n - 48)%Z else None.

(** The leading digits of [s] (their values) and the rest. *)
Fixpoint span_digits (s : string) : list Z * string :=
  match s with
  | EmptyString => ([], EmptyString)
  | String c rest =>
      match digit_of c with
      | Some d => let '(ds, r) := span_digits rest in (d :: ds, r)
      | None => ([], s)
      end
  end.

Definition is_space (c : ascii) : bool :=
  let n := N_of_ascii c in
  ((9 <=? n) && (n <=? 13) || (28 <=? n) && (n <=? 32))%N.

Fixpoint skip_spaces (s : string) : string :=
  match s with
  | String c rest => if is_space c then skip_spaces rest else s
  | EmptyString => s
  end.

(** A field of one or two digits whose two-digit forms lie in [lo2, hi2]
    and whose one-digit forms lie in [lo1, 9]. *)
Definition field_value (lo1 lo2 hi2 : Z) (ds : list Z) : option Z :=
  match ds with
  | [d] => if (lo1 <=? d)%Z then Some d else None
  | [d1; d2] =>
      let v := (10 * d1 + d2)%Z in
      if ((lo2 <=? v) && (v <=? hi2))%Z then Some v else None
  | _ => None
  end.

Definition expect (c : ascii) (s : string) : option string :=
  match s with
  | String c' rest => if Ascii.eqb c c' then Some rest else None
  | EmptyString => None
  end.

Definition is_leap (y : Z) : bool :=
  ((y mod 4 =? 0) && (negb (y mod 100 =? 0) || (y mod 400 =? 0)))%Z.

Definition days_in_month (y m : Z) : Z :=
  if (m =? 2)%Z then (if is_leap y then 29 else 28)%Z
  else if ((m =? 4) || (m =? 6) || (m =? 9) || (m =? 11))%Z then 30%Z
  else 31%Z.

Definition days_before_year (y : Z) : Z :=
  let p := (y - 1)%Z in (p * 365 + p / 4 - p / 100 + p / 400)%Z.

Fixpoint days_before_month (y : Z) (m : nat) : Z :=
  match m with
  | O => 0%Z
  | S k => (days_before_month y k + days_in_month y (Z.of_nat (S k)))%Z
  end.

(** [datetime(y, m, d, H, M)] as microseconds since 0001-01-01 00:00. *)
Definition datetime_of (y m d H M : Z) : option Z :=
  if ((1 <=? y) && (1 <=? d) && (d <=? days_in_month y m))%Z then
    Some (((days_before_year y + days_before_month y (Z.to_nat (m - 1)) + (d - 1))
             * US_PER_DAY
           + (H * 3600 + M * 60) * 1000000)%Z)
  else None.

Definition strptime_ymd_hm (s : string) : option Z :=
  let '(yd, s1) := span_digits s in
  match yd with
  | [y1; y2; y3; y4] =>
      let y := (1000 * y1 + 100 * y2 + 10 * y3 + y4)%Z in
      s2 ← expect "/"%char s1;
      let '(md, s3) := span_digits s2 in
      m ← field_value 1 1 12 md;
      s4 ← expect "/"%char s3;
      (* the day alternative [ [1-9]] begins with one blank *)
      '(d, s5) ← match s4 with
                 | String " "%char s4' =>
                     let '(dd, r) := span_digits s4' in
                     match dd with
                     | [d] => if (1 <=? d)%Z then Some (d, r) else None
                     | _ => None
                     end
                 | _ =>
                     let '(dd, r) := span_digits s4 in
                     d ← field_value 1 1 31 dd; Some (d, r)
                 end;
      match s5 with
      | String c _ =>
          if is_space c then
            let '(hd, s6) := span_digits (skip_spaces s5) in
            H ← field_value 0 0 23 hd;
            s7 ← expect ":"%char s6;
            let '(mind, s8) := span_digits s7 in
            M ← field_value 0 0 59 mind;
            match s8 with
            | EmptyString => datetime_of y m d H M
            | _ => None
            end
          else None
      | EmptyString => None
      end
  | _ => None
  end.

(** ** Universe resolver *)

(** [ScanService.BOARD_PATTERNS]: [code.startswith(...)] tests by board. *)
Definition BOARD_PATTERNS (board : string) : option (string -> bool) :=
  if String.eqb board "sh_main" then Some (fun code => String.prefix "sh.60" code)
  else if String.eqb board "sz_main" then Some (fun code => String.prefix "sz.00" code)
  else if String.eqb board "cyb" then Some (fun code => String.prefix "sz.30" code)
  else if String.eqb board "kcb" then Some (fun code => String.prefix "sh.688" code)
  else if String.eqb board "bj" then Some (fun code => String.prefix "bj." code)
  else if String.eqb board "etf" then
    Some (fun code =>
            String.prefix "sh.51" code || String.prefix "sh.56" code
            || String.prefix "sh.58" code || String.prefix "sz.15" code
            || String.prefix "sz.16" code || String.prefix "sz.18" code)
  else None.

(** The catalog as the query [SELECT code FROM stocks ORDER BY code] sees
    it: [None] when connecting or querying raises. *)
Definition catalog := option (list string).

(** [ScanService.get_all_stocks]: any exception is logged and gives []. *)
Definition get_all_stocks (cat : catalog) : list string :=
  match cat with
  | Some codes => codes
  | None => []
  end.

(** [ScanService.get_stocks_by_boards] *)
Definition get_stocks_by_boards (cat : catalog) (boards : list string) : list string :=
  let all_stocks := get_all_stocks cat in
  match boards with
  | [] => all_stocks
  | _ =>
      List.filter
        (fun code =>
           existsb (fun board =>
                      match BOARD_PATTERNS board with
                      | Some pattern => pattern code
                      | None => false
                      end) boards)
        all_stocks
  end.

(** Truthiness of an [Optional[List[str]]]. *)
Definition truthy {A} (l : option (list A)) : bool :=
  match l with
  | Some (_ :: _) => true
  | _ => false
  end.

(** [ScanService.get_stock_list] *)
Definition get_stock_list (cat : catalog) (stock_pool : string)
    (boards stock_codes : option (list string)) : list string :=
  if String.eqb stock_pool "custom" && truthy stock_codes then
    default [] stock_codes
  else if String.eqb stock_pool "boards" && truthy boards then
    get_stocks_by_boards cat (default [] boards)
  else
    get_all_stocks cat.

(** ** Task record *)

Module Status.
Inductive t := running | completed | cancelled | error.

Definition is_terminal (st : t) : bool :=
  match st with
  | running => false
  | _ => true
  end.
End Status.

#[global] Instance status_eq_dec : EqDecision Status.t.
Proof. solve_decision. Defined.

Module ScanResultResponse.
Record t := mk
  { task_id : string;
    status : Status.t;
    results : list ScanResultItem.t;
    total_scanned : nat;
    total_found : nat;
    elapsed_time : float }.
End ScanResultResponse.

Module ScanTask.
Record t := mk
  { task_id : string;
    status : Status.t;
    total_count : nat;
    processed_count : nat;
    found_count : nat;
    current_stock : option string;
    results : list ScanResultItem.t;
    error_message : option string;
    start_time : float;
    cancelled : bool }.

(** [ScanTask.__init__], with [time.time()] read as [now]. *)
Definition init (task_id : string) (total_stocks : nat) (now : float) : t :=
  {| task_id := task_id; status := Status.running;
     total_count := total_stocks; processed_count := 0; found_count := 0;
     current_stock := None; results := []; error_message := None;
     start_time := now; cancelled := false |}.

Definition set_status (v : Status.t) (k : t) : t :=
  mk (task_id k) v (total_count k) (processed_count k) (found_count k)
     (current_stock k) (results k) (error_message k) (start_time k) (cancelled k).
Definition set_processed_count (v : nat) (k : t) : t :=
  mk (task_id k) (status k) (total_count k) v (found_count k)
     (current_stock k) (results k) (error_message k) (start_time k) (cancelled k).
Definition set_found_count (v : nat) (k : t) : t :=
  mk (task_id k) (status k) (total_count k) (processed_count k) v
     (current_stock k) (results k) (error_message k) (start_time k) (cancelled k).
Definition set_current_stock (v : option string) (k : t) : t :=
  mk (task_id k) (status k) (total_count k) (processed_count k) (found_count k)
     v (results k) (error_message k) (start_time k) (cancelled k).
Definition set_results (v : list ScanResultItem.t) (k : t) : t :=
  mk (task_id k) (status k) (total_count k) (processed_count k) (found_count k)
     (current_stock k) v (error_message k) (start_time k) (cancelled k).
Definition set_error_message (v : option string) (k : t) : t :=
  mk (task_id k) (status k) (total_count k) (processed_count k) (found_count k)
     (current_stock k) (results k) v (start_time k) (cancelled k).
Definition set_cancelled (v : bool) (k : t) : t :=
  mk (task_id k) (status k) (total_count k) (processed_count k) (found_count k)
     (current_stock k) (results k) (error_message k) (start_time k) v.

(** The [elapsed_time] property, with [time.time()] read as [now]. *)
Definition elapsed_time (k : t) (now : float) : float :=
  PrimFloat.sub now (start_time k).

(** [ScanTask.to_result] *)
Definition to_result (k : t) (now : float) : ScanResultResponse.t :=
  {| ScanResultResponse.task_id := task_id k;
     ScanResultResponse.status := status k;
     ScanResultResponse.results := results k;
     ScanResultResponse.total_scanned := processed_count k;
     ScanResultResponse.total_found := found_count k;
     ScanResultResponse.elapsed_time := elapsed_time k now |}.
End ScanTask.

(** ** The service: registry, store and background threads *)

(** A row of the [scan_tasks] table as [create_task_in_db] writes it. *)
Module TaskRow.
Record t := mk
  { status : Status.t;
    request : ScanRequest.t;
    total_count : nat;
    processed_count : nat;
    found_count : nat }.
End TaskRow.

Module Service.
Record t := mk
  { tasks : gmap string ScanTask.t;
    scan_tasks : gmap string TaskRow.t;
    (** arguments of the [_run_scan] threads started so far *)
    threads : list (string * list string * ScanRequest.t) }.
End Service.

Inductive exn :=
| ValueError (msg : string)
| StoreError.

(** What [start_scan] reads from its surroundings. *)
Module Env.
Record t := mk
  { uuid4 : string;
    stocks_table : catalog;
    (** does the insert of [create_task_in_db] go through? *)
    store_up : bool;
    time_time : float }.
End Env.

(** [ScanService.start_scan] *)
Definition start_scan (env : Env.t) (request : ScanRequest.t) (svc : Service.t)
    : Service.t * (exn + string) :=
  let task_id := Env.uuid4 env in
  let stocks :=
    get_stock_list (Env.stocks_table env) (ScanRequest.stock_pool request)
      (ScanRequest.boards request) (ScanRequest.stock_codes request) in
  match stocks with
  | [] => (svc, inl (ValueError "no stocks to scan"))
  | _ =>
      if Env.store_up env then
        let row := TaskRow.mk Status.running request (length stocks) 0 0 in
        let task := ScanTask.init task_id (length stocks) (Env.time_time env) in
        (Service.mk (<[task_id := task]> (Service.tasks svc))
                    (<[task_id := row]> (Service.scan_tasks svc))
                    (Service.threads svc ++ [(task_id, stocks, request)]),
         inr task_id)
      else (svc, inl StoreError)
  end.

(** [ScanService.cancel_scan], run without interleaving. *)
Definition cancel_scan (task_id : string) (svc : Service.t) : Service.t * bool :=
  match Service.tasks svc !! task_id with
  | Some task =>
      if decide (ScanTask.status task = Status.running) then
        (Service.mk (<[task_id := ScanTask.set_cancelled true task]> (Service.tasks svc))
                    (Service.scan_tasks svc) (Service.threads svc),
         true)
      else (svc, false)
  | None => (svc, false)
  end.

(** ** One unit of work ([ScanService.scan_single_stock]) *)

(** The objects of a fresh [bs_points] list: object [a] is the [a]-th
    point. *)
Definition heap_of_list (pts : list BSPoint.t) : heap :=
  fun a => nth a pts (BSPoint.mk EmptyString EmptyString 0%float 0 false).

Definition result_item (code : string) (nm : option string) (kline_type : string)
    (bsp : BSPoint.t) : ScanResultItem.t :=
  {| ScanResultItem.code := code;
     ScanResultItem.name := nm;
     ScanResultItem.bsp_type := BSPoint.type bsp;
     ScanResultItem.bsp_time := BSPoint.time bsp;
     ScanResultItem.bsp_value := BSPoint.value bsp;
     ScanResultItem.is_buy := BSPoint.is_buy bsp;
     ScanResultItem.kline_type := kline_type |}.

Section Unit.
Variable strptime : string -> option Z.

(** The [try] block of [scan_single_stock] after [current_stock] is
    written.  [engine] is what [ChanService.calculate_chan] gives for the
    code ([None]: it raises); [now] is [datetime.now()].  Every exception
    is caught and gives [None]. *)
Definition scan_body (engine : option ChanResponse.t) (now : Z)
    (code : string) (request : ScanRequest.t)
    : option (list ScanResultItem.t) :=
  match engine with
  | None => None
  | Some result =>
      let pts := ChanResponse.bs_points result in
      match filter_buy_points strptime now (heap_of_list pts)
              (seq 0 (length pts)) (ScanRequest.bsp_types request)
              (ScanRequest.time_window_days request) with
      | None => None
      | Some (h', recent_buy_points) =>
          match recent_buy_points with
          | [] => None
          | _ =>
              Some (map (fun a => result_item code (ChanResponse.name result)
                                    (ScanRequest.kline_type request) (h' a))
                      recent_buy_points)
          end
      end
  end.

(** [scan_single_stock] as one call, the flag read on entry. *)
Definition scan_single_stock (cancelled : bool) (engine : option ChanResponse.t)
    (now : Z) (code : string) (request : ScanRequest.t)
    : option (list ScanResultItem.t) :=
  if cancelled then None else scan_body engine now code request.
End Unit.

(** ** The scheduler as a transition system

    One task is followed from the moment [start_scan] has started its
    thread.  The threads that touch the task are the driver ([_run_scan]),
    the pool workers (one [scan_single_stock] call per future) and callers
    of [cancel_scan]; a step is one statement of one of them.  Readers
    ([to_result]) take no lock and may look at any state. *)

Definition MAX_WORKERS : nat := 15.
Definition SINGLE_STOCK_TIMEOUT : nat := 30.

(** A future of the pool.  Times are readings of the logical [clock]. *)
Inductive future :=
| FPending
| FStarted (t0 : nat)
  (** a worker is past [if task.cancelled], before [with task.lock] *)
| FRunning (t0 : nat)
  (** [current_stock] written; engine call and filter under way *)
| FDone (t0 t1 : nat) (r : option (list ScanResultItem.t)).

Definition in_flight (f : future) : bool :=
  match f with
  | FStarted _ | FRunning _ => true
  | _ => false
  end.

Definition is_done (f : future) : bool :=
  match f with
  | FDone _ _ _ => true
  | _ => false
  end.

(** Where the driver stands: the statement of [_run_scan] it executes
    next. *)
Inductive pc :=
| PSubmit                     (** building the [futures] dict *)
| PNext                       (** [as_completed]: waiting for a completion *)
| PCheck (i : nat)            (** [if task.cancelled: break] *)
| PResult (i c0 : nat)        (** [future.result(timeout=...)], called at [c0] *)
| PLock (r : option (list ScanResultItem.t))   (** entering [with task.lock] *)
| PInc (r : option (list ScanResultItem.t))    (** [processed_count += 1] *)
| PExtend (r : option (list ScanResultItem.t)) (** [if result: results.extend] *)
| PFound (l : list ScanResultItem.t)           (** [found_count += len(result)] *)
| PUnlock                     (** leaving the block; push and store update *)
| PELock                      (** [except]: entering [with task.lock] *)
| PEInc                       (** [except]: [processed_count += 1] *)
| PEUnlock
| PFinLock                    (** after the loop: entering [with task.lock] *)
| PFinStatus                  (** [status = "cancelled"] or ["completed"] *)
| PFinCurrent                 (** [current_stock = None] *)
| PFinUnlock                  (** leaving the block *)
| PXLock (msg : string)       (** outer [except]: entering [with task.lock] *)
| PXStatus (msg : string)     (** [status = "error"] *)
| PXMsg (msg : string)        (** [error_message = str(e)] *)
| PXUnlock                    (** leaving the block *)
| PDone.                      (** past the last [with task.lock] block *)

Record sys := mkSys
  { task : ScanTask.t;
    lock : bool;                (** is [task.lock] held? *)
    futures : list future;
    yielded : list nat;         (** futures [as_completed] has handed out *)
    at_pc : pc;
    clock : nat;
    cancel_calls : nat          (** [cancel_scan] calls past the status test *) }.

Definition with_task (f : ScanTask.t -> ScanTask.t) (s : sys) : sys :=
  mkSys (f (task s)) (lock s) (futures s) (yielded s) (at_pc s) (clock s) (cancel_calls s).
Definition with_lock (b : bool) (s : sys) : sys :=
  mkSys (task s) b (futures s) (yielded s) (at_pc s) (clock s) (cancel_calls s).
Definition with_futures (fs : list future) (s : sys) : sys :=
  mkSys (task s) (lock s) fs (yielded s) (at_pc s) (clock s) (cancel_calls s).
Definition with_yielded (ys : list nat) (s : sys) : sys :=
  mkSys (task s) (lock s) (futures s) ys (at_pc s) (clock s) (cancel_calls s).
Definition goto (p : pc) (s : sys) : sys :=
  mkSys (task s) (lock s) (futures s) (yielded s) p (clock s) (cancel_calls s).
Definition with_clock (c : nat) (s : sys) : sys :=
  mkSys (task s) (lock s) (futures s) (yielded s) (at_pc s) c (cancel_calls s).
Definition with_cancel_calls (n : nat) (s : sys) : sys :=
  mkSys (task s) (lock s) (futures s) (yielded s) (at_pc s) (clock s) n.

(** What the other threads and the surroundings do. *)
Inductive label :=
| LTick                       (** one unit of time passes *)
| LStart (i : nat)            (** a worker takes unit [i] and reads the flag *)
| LMark (i : nat)             (** [with task.lock: current_stock = code] *)
| LFinish (i : nat) (engine : option ChanResponse.t) (now : Z)
                              (** engine answer, filter, [return] *)
| LYield (i : nat)            (** [as_completed] hands out future [i] *)
| LSubmitFail (k : nat) (msg : string)
                              (** [executor.submit] raises after [k] units *)
| LCancelCheck                (** [cancel_scan]: the [status == "running"] test *)
| LCancelSet                  (** [cancel_scan]: [with task.lock: cancelled = True] *)
| LDriver.                    (** the driver executes its next statement *)

(** State right after [start_scan] started the thread. *)
Definition init_sys (task_id : string) (stocks : list string) (now : float) : sys :=
  mkSys (ScanTask.init task_id (length stocks) now) false [] [] PSubmit 0 0.

Section Scheduler.
Variable strptime : string -> option Z.
Variable stocks : list string.
Variable request : ScanRequest.t.

Definition acquire (next : pc) (s : sys) : option sys :=
  if lock s then None else Some (goto next (with_lock true s)).

Definition release (next : pc) (s : sys) : option sys :=
  Some (goto next (with_lock false s)).

(** The next statement of [_run_scan] that reads or writes the task record
    or its lock; [None] when the driver is blocked (on the lock, in
    [as_completed], in [future.result]) or is at [PDone].

    [PDone] stands for all of [_run_scan] behind its last [with task.lock]
    block, the return included: the log calls, [save_results_to_db],
    [complete_task_in_db] and [_push_progress] that the source still runs
    there read the task, catch their own exceptions and assign nothing to
    it.  So [PDone] holds from the release of the lock on, not only once the
    thread has returned, and the driver is not holding the lock there. *)
Definition driver_step (s : sys) : option sys :=
  let k := task s in
  match at_pc s with
  | PSubmit =>
      Some (goto PNext (with_futures (replicate (length stocks) FPending) s))
  | PNext =>
      if (length (yielded s) =? length (futures s))%nat
      then Some (goto PFinLock s) else None
  | PCheck i =>
      if ScanTask.cancelled k then Some (goto PFinLock s)
      else Some (goto (PResult i (clock s)) s)
  | PResult i c0 =>
      match futures s !! i with
      | Some (FDone _ _ r) => Some (goto (PLock r) s)
      | _ =>
          if (c0 + SINGLE_STOCK_TIMEOUT <=? clock s)%nat
          then Some (goto PELock s)        (* TimeoutError *)
          else None
      end
  | PLock r => acquire (PInc r) s
  | PInc r =>
      Some (goto (PExtend r)
              (with_task (ScanTask.set_processed_count
                            (ScanTask.processed_count k + 1)) s))
  | PExtend r =>
      match r with
      | Some (x :: l') =>
          Some (goto (PFound (x :: l'))
                  (with_task (ScanTask.set_results
                                (ScanTask.results k ++ x :: l')) s))
      | _ => Some (goto PUnlock s)
      end
  | PFound l =>
      Some (goto PUnlock
              (with_task (ScanTask.set_found_count
                            (ScanTask.found_count k + length l)) s))
  | PUnlock => release PNext s
  | PELock => acquire PEInc s
  | PEInc =>
      Some (goto PEUnlock
              (with_task (ScanTask.set_processed_count
                            (ScanTask.processed_count k + 1)) s))
  | PEUnlock => release PNext s
  | PFinLock => acquire PFinStatus s
  | PFinStatus =>
      Some (goto PFinCurrent
              (with_task (ScanTask.set_status
                            (if ScanTask.cancelled k then Status.cancelled
                             else Status.completed)) s))
  | PFinCurrent =>
      Some (goto PFinUnlock (with_task (ScanTask.set_current_stock None) s))
  | PFinUnlock => release PDone s
  | PXLock msg => acquire (PXStatus msg) s
  | PXStatus msg =>
      Some (goto (PXMsg msg) (with_task (ScanTask.set_status Status.error) s))
  | PXMsg msg =>
      Some (goto PXUnlock (with_task (ScanTask.set_error_message (Some msg)) s))
  | PXUnlock => release PDone s
  | PDone => None
  end.

Definition set_future (i : nat) (f : future) (s : sys) : sys :=
  with_futures (<[i := f]> (futures s)) s.

Definition busy_workers (s : sys) : nat :=
  length (List.filter in_flight (futures s)).

Definition step (l : label) (s : sys) : option sys :=
  match l with
  | LTick => Some (with_clock (clock s + 1) s)
  | LStart i =>
      match futures s !! i with
      | Some FPending =>
          if (busy_workers s <? MAX_WORKERS)%nat then
            if ScanTask.cancelled (task s)
            then Some (set_future i (FDone (clock s) (clock s) None) s)
            else Some (set_future i (FStarted (clock s)) s)
          else None
      | _ => None
      end
  | LMark i =>
      match futures s !! i, stocks !! i with
      | Some (FStarted t0), Some code =>
          if lock s then None
          else Some (set_future i (FRunning t0)
                       (with_task (ScanTask.set_current_stock (Some code)) s))
      | _, _ => None
      end
  | LFinish i engine now =>
      match futures s !! i, stocks !! i with
      | Some (FRunning t0), Some code =>
          Some (set_future i
                  (FDone t0 (clock s) (scan_body strptime engine now code request)) s)
      | _, _ => None
      end
  | LYield i =>
      match at_pc s, futures s !! i with
      | PNext, Some (FDone _ _ _) =>
          if bool_decide (i ∈ yielded s) then None
          else Some (goto (PCheck i) (with_yielded (i :: yielded s) s))
      | _, _ => None
      end
  | LSubmitFail k msg =>
      match at_pc s with
      | PSubmit =>
          if (k <? length stocks)%nat
          then Some (goto (PXLock msg) (with_futures (replicate k FPending) s))
          else None
      | _ => None
      end
  | LCancelCheck =>
      if decide (ScanTask.status (task s) = Status.running)
      then Some (with_cancel_calls (cancel_calls s + 1) s)
      else Some s
  | LCancelSet =>
      match cancel_calls s with
      | S n =>
          if lock s then None
          else Some (with_cancel_calls n
                       (with_task (ScanTask.set_cancelled true) s))
      | O => None
      end
  | LDriver => driver_step s
  end.

Fixpoint exec (tr : list label) (s : sys) : option sys :=
  match tr with
  | [] => Some s
  | l :: tr' => s' ← step l s; exec tr' s'
  end.
End Scheduler.

(** ** Specification vocabulary *)

(** Two objects agree on every field but [type]. *)
Definition same_but_type (p q : BSPoint.t) : Prop :=
  BSPoint.time p = BSPoint.time q ∧ BSPoint.value p = BSPoint.value q ∧
  BSPoint.klu_idx p = BSPoint.klu_idx q ∧ BSPoint.is_buy p = BSPoint.is_buy q.

(** ** Invariant of the scheduler *)

(** Statements executed with [task.lock] held. *)
Definition locked_pc (p : pc) : bool :=
  match p with
  | PInc _ | PExtend _ | PFound _ | PUnlock | PEInc | PEUnlock
  | PFinStatus | PFinCurrent | PFinUnlock
  | PXStatus _ | PXMsg _ | PXUnlock => true
  | _ => false
  end.

(** A completion handed out by [as_completed] and not yet counted. *)
Definition owed (p : pc) : nat :=
  match p with
  | PCheck _ | PResult _ _ | PLock _ | PInc _ | PELock | PEInc => 1
  | _ => 0
  end.

(** Results appended whose number is not yet added to [found_count]. *)
Definition unfound (p : pc) : nat :=
  match p with
  | PFound l => length l
  | _ => 0
  end.

(** The driver has assigned the final status. *)
Definition status_written (p : pc) : bool :=
  match p with
  | PFinCurrent | PFinUnlock | PXMsg _ | PXUnlock | PDone => true
  | _ => false
  end.

(** The inner [except] branch of the loop. *)
Definition except_pc (p : pc) : bool :=
  match p with
  | PELock | PEInc | PEUnlock => true
  | _ => false
  end.

Definition handled (p : pc) : option nat :=
  match p with
  | PCheck i | PResult i _ => Some i
  | _ => None
  end.

Record Inv (stocks : list string) (s : sys) : Prop := mkInv
  { inv_total : ScanTask.total_count (task s) = length stocks;
    inv_futures : length (futures s) ≤ length stocks;
    inv_submit : at_pc s = PSubmit → yielded s = [] ∧
                 ScanTask.processed_count (task s) = 0;
    inv_nodup : NoDup (yielded s);
    inv_done : ∀ i, i ∈ yielded s → ∃ t0 t1 r, futures s !! i = Some (FDone t0 t1 r);
    inv_handled : ∀ i, handled (at_pc s) = Some i → i ∈ yielded s;
    inv_lock : lock s = locked_pc (at_pc s);
    inv_processed : ScanTask.processed_count (task s) + owed (at_pc s)
                    ≤ length (yielded s);
    inv_found : ScanTask.found_count (task s) + unfound (at_pc s)
                = length (ScanTask.results (task s));
    inv_status : Status.is_terminal (ScanTask.status (task s))
                 = status_written (at_pc s);
    inv_except : except_pc (at_pc s) = false }.

(** The counters and the result list of the task. *)
Definition counters (s : sys) : nat * nat * list ScanResultItem.t :=
  (ScanTask.processed_count (task s), ScanTask.found_count (task s),
   ScanTask.results (task s)).

(** The loop body behind the cancel check. *)
Definition body_pc (p : pc) : bool :=
  match p with
  | PResult _ _ | PLock _ | PInc _ | PExtend _ | PFound _ | PUnlock
  | PELock | PEInc | PEUnlock => true
  | _ => false
  end.

(** A completion past the cancel check and not yet counted. *)
Definition in_hand (p : pc) : nat :=
  match p with
  | PResult _ _ | PLock _ | PInc _ | PELock | PEInc => 1
  | _ => 0
  end.

(** With the flag set and the driver outside the loop body: the status is
    still to be written, or was written as cancelled. *)
Definition winding_down (s : sys) : Prop :=
  ScanTask.cancelled (task s) = true ∧
  match at_pc s with
  | PNext | PCheck _ | PFinLock | PFinStatus => True
  | PFinCurrent | PFinUnlock | PDone =>
      ScanTask.status (task s) = Status.cancelled
  | _ => False
  end.

(** ** Example data *)

(** One decision point carrying the packed tags 2 and 3a, one stamped
    exactly three days before [ex_now], one a minute earlier. *)
Definition ex_now : Z := 63840916800000000.   (* 2024/01/15 12:00 *)
Definition ex_packed : BSPoint.t :=
  BSPoint.mk "[<BSP_TYPE.T2: '2'>, <BSP_TYPE.T3A: '3a'>]" "2024/01/14 10:30"
    12.5%float 480 true.
Definition ex_edge : BSPoint.t :=
  BSPoint.mk "[<BSP_TYPE.T1: '1'>]" "2024/01/12 12:00" 9%float 470 true.
Definition ex_late : BSPoint.t :=
  BSPoint.mk "[<BSP_TYPE.T1: '1'>]" "2024/01/12 11:59" 9%float 469 true.

(** The tags of the objects a call returns, in order. *)
Definition emitted_types (r : option (heap * list nat)) : option (list string) :=
  '(h', out) ← r; Some (map (fun a => BSPoint.type (h' a)) out).

Definition ex_hit : BSPoint.t :=
  BSPoint.mk "[<BSP_TYPE.T1: '1'>]" "2024/01/14 09:30" 10.5%float 498 true.
Definition ex_engine_A : option ChanResponse.t :=
  Some (ChanResponse.mk (Some "Alpha") [ex_hit]).
Definition ex_item : ScanResultItem.t :=
  ScanResultItem.mk "A" (Some "Alpha") "1" "2024/01/14 09:30" 10.5%float true "day".
Definition ex_request (codes : list string) : ScanRequest.t :=
  ScanRequest.mk "custom" None (Some codes) "day" ["1"] 3 500.

(** Unit A is handled up to the point where its results are appended. *)
Definition ex_trace_appended : list label :=
  [LDriver; LStart 0; LMark 0; LFinish 0 ex_engine_A ex_now; LYield 0;
   LDriver; LDriver; LDriver; LDriver; LDriver].

(** Unit A is in flight when the flag is set and finishes afterwards. *)
Definition ex_trace_running : list label :=
  [LDriver; LStart 0; LMark 0; LCancelCheck].
Definition ex_trace_cancel : list label :=
  [LCancelSet; LStart 1; LFinish 0 ex_engine_A ex_now; LYield 0;
   LDriver; LDriver; LDriver; LDriver; LDriver].

(** One unit that answers after 31 ticks. *)
Definition ex_trace_slow : list label :=
  [LDriver; LStart 0; LMark 0] ++ replicate 31 LTick
  ++ [LFinish 0 ex_engine_A ex_now; LYield 0] ++ replicate 12 LDriver.

(** One unit that has not answered after [n] ticks. *)
Definition ex_trace_hung (n : nat) : list label :=
  [LDriver; LStart 0; LMark 0] ++ replicate n LTick.

(** Both units answer; the scan runs to completion. *)
Definition ex_trace_complete : list label :=
  [LDriver; LStart 0; LStart 1; LMark 0; LMark 1;
   LFinish 0 ex_engine_A ex_now; LFinish 1 None ex_now; LYield 0]
  ++ replicate 7 LDriver ++ [LYield 1] ++ replicate 6 LDriver
  ++ replicate 5 LDriver.

Definition ex_init2 : sys := init_sys "t" ["A"; "B"] 0%float.
Definition ex_init1 : sys := init_sys "t" ["A"] 0%float.

Definition ex_final : sys :=
  Eval vm_compute in
    default ex_init2
      (exec strptime_ymd_hm ["A"; "B"] (ex_request ["A"; "B"]) ex_trace_complete ex_init2).

(** Unit A's results are appended, [found_count] not yet updated. *)
Definition ex_appended : sys :=
  Eval vm_compute in
    default ex_init2
      (exec strptime_ymd_hm ["A"; "B"] (ex_request ["A"; "B"]) ex_trace_appended ex_init2).

(** Unit A runs and a [cancel_scan] call has passed its status test. *)
Definition ex_running : sys :=
  Eval vm_compute in
    default ex_init2
      (exec strptime_ymd_hm ["A"; "B"] (ex_request ["A"; "B"]) ex_trace_running ex_init2).

(** The end of the cancelled run. *)
Definition ex_cancelled_end : sys :=
  Eval vm_compute in
    default ex_init2
      (exec strptime_ymd_hm ["A"; "B"] (ex_request ["A"; "B"]) ex_trace_cancel ex_running).

(** The end of the run with the slow unit. *)
Definition ex_slow_end : sys :=
  Eval vm_compute in
    default ex_init1
      (exec strptime_ymd_hm ["A"] (ex_request ["A"]) ex_trace_slow ex_init1).

(** The flag is set while unit A runs; the driver waits in [as_completed]. *)
Definition ex_flagged : sys :=
  Eval vm_compute in
    default ex_init2
      (exec strptime_ymd_hm ["A"; "B"] (ex_request ["A"; "B"])
         (ex_trace_running ++ [LCancelSet]) ex_init2).

(** One unit; a [cancel_scan] call passes its status test while the task
    runs and has not taken the lock yet when the scan completes. *)
Definition ex_trace_late_cancel : list label :=
  [LDriver; LStart 0; LMark 0; LCancelCheck; LFinish 0 ex_engine_A ex_now; LYield 0]
  ++ replicate 12 LDriver.

Definition ex_completed_pending : sys :=
  Eval vm_compute in
    default ex_init1
      (exec strptime_ymd_hm ["A"] (ex_request ["A"]) ex_trace_late_cancel ex_init1).

(** The same call has now set the flag. *)
Definition ex_completed_flagged : sys :=
  Eval vm_compute in
    default ex_init1
      (step strptime_ymd_hm ["A"] (ex_request ["A"]) LCancelSet ex_completed_pending).

(** A request for the whole market while the catalog cannot be read. *)
Definition ex_env_down : Env.t := Env.mk "id-1" None true 100%float.
Definition ex_request_all : ScanRequest.t :=
  ScanRequest.mk "all" None None "day" ["1"] 3 500.
Definition ex_service : Service.t :=
  Service.mk {["id-0" := ScanTask.init "id-0" 7 5%float]} ∅ [("id-0", ["x"], ex_request_all)].

(** ** Pure reading of the filter

    What one pass of [filter_buy_points] computes, written on values: the
    test a decision point has to pass and the tag it is emitted with. *)

Fixpoint no_quote (s : string) : bool :=
  match s with
  | EmptyString => true
  | String c rest => negb (Ascii.eqb c "'"%char) && no_quote rest
  end.

(** A text in which each tag stands between single quotes, after some
    quote-free text, with a quote-free tail: the shape of the [repr] of a
    list of enum members. *)
Fixpoint pack_tags (segs : list (string * string)) (tail : string) : string :=
  match segs with
  | [] => tail
  | (sep, t) :: segs' =>
      (sep ++ String "'"%char (t ++ String "'"%char (pack_tags segs' tail)))%string
  end.

Definition point_kept (strptime : string -> option Z) (bsp_types : list string)
    (cutoff : Z) (p : BSPoint.t) : bool :=
  BSPoint.is_buy p
  && type_matched bsp_types (bsp_type_values (BSPoint.type p))
  && match strptime (BSPoint.time p) with
     | Some ts => (cutoff <=? ts)%Z
     | None => false
     end.

Definition canonical_type (bsp_types : list string) (raw_type : string) : string :=
  let vals := bsp_type_values raw_type in
  if 1 <? length vals then default raw_type (first_requested bsp_types vals)
  else match vals with
       | v :: _ => v
       | [] => raw_type
       end.

(** The result row built from a decision point that passed the filter. *)
Definition item_of_point (code : string) (nm : option string) (kline_type : string)
    (bsp_types : list string) (p : BSPoint.t) : ScanResultItem.t :=
  result_item code nm kline_type
    (BSPoint.set_type (canonical_type bsp_types (BSPoint.type p)) p).

Definition ex_request_long_window : ScanRequest.t :=
  ScanRequest.mk "custom" None (Some ["A"]) "day" ["1"] 1000000 500.

(** ** Other operations of the service and its endpoints *)

(** [ScanService.get_task] *)
Definition get_task (task_id : string) (svc : Service.t) : option ScanTask.t :=
  Service.tasks svc !! task_id.

(** [current_time - task.start_time > max_age_seconds]; the age limit, an
    [int] in the source, is read as the float of the same value. *)
Definition expired (current_time max_age_seconds : float) (task : ScanTask.t) : bool :=
  PrimFloat.ltb max_age_seconds (PrimFloat.sub current_time (ScanTask.start_time task)).

(** [ScanService.cleanup_old_tasks], with [time.time()] read as
    [current_time]. *)
Definition cleanup_old_tasks (current_time max_age_seconds : float)
    (svc : Service.t) : Service.t :=
  Service.mk
    (filter (fun kv => expired current_time max_age_seconds kv.2 = false)
       (Service.tasks svc))
    (Service.scan_tasks svc) (Service.threads svc).

Module ScanTaskResponse.
Record t := mk
  { task_id : string;
    status : string;
    total_stocks : nat }.
End ScanTaskResponse.

(** The [start_scan] endpoint of [scan_api.py]; an [HTTPException] is kept
    as its status code. *)
Definition api_start_scan (env : Env.t) (request : ScanRequest.t) (svc : Service.t)
    : Service.t * (nat + ScanTaskResponse.t) :=
  match start_scan env request svc with
  | (svc', inr task_id) =>
      (svc', inr (ScanTaskResponse.mk task_id "started"
                    (match get_task task_id svc' with
                     | Some task => ScanTask.total_count task
                     | None => 0
                     end)))
  | (svc', inl (ValueError _)) => (svc', inl 400)
  | (svc', inl StoreError) => (svc', inl 500)
  end.

(** The [cancel_scan] endpoint: [None] is the [HTTPException] with status
    code 400. *)
Definition api_cancel_scan (task_id : string) (svc : Service.t)
    : Service.t * option bool :=
  let '(svc', success) := cancel_scan task_id svc in
  (svc', if success then Some true else None).

(** The [event_generator] of the progress endpoint, run against the
    snapshots its successive [get_progress] calls return ([None]: the task
    is no longer registered).  Of a snapshot the generator reads the
    status only. *)
Fixpoint event_generator {A : Type} (status_of : A -> Status.t)
    (polls : list (option A)) : list A :=
  match polls with
  | [] => []
  | None :: _ => []
  | Some progress :: rest =>
      progress ::
        (if Status.is_terminal (status_of progress) then []
         else event_generator status_of rest)
  end.

Definition ex_env_up : Env.t := Env.mk "id-1" (Some ["sh.600000"; "sz.000001"]) true 100%float.
Definition ex_service_old : Service.t :=
  Service.mk {["id-0" := ScanTask.init "id-0" 7 5%float]} ∅ [].

(** ** Further invariants of the scheduler *)

(** What the unit behind future [i] returned. *)
Definition unit_result (fs : list future) (i : nat) : list ScanResultItem.t :=
  match fs !! i with
  | Some (FDone _ _ (Some l)) => l
  | _ => []
  end.

(** The completions whose results are in [task.results], latest first: all
    that were handed out, but for the one in hand before [results.extend]. *)
Definition recorded (s : sys) : list nat :=
  match at_pc s with
  | PCheck _ | PResult _ _ | PLock _ | PInc _ | PExtend _ => tail (yielded s)
  | _ => yielded s
  end.

(** No cancel flag has cut the run short. *)
Definition live (s : sys) : Prop :=
  (ScanTask.cancelled (task s) = false ∧ ScanTask.status (task s) = Status.running)
  ∨ ScanTask.status (task s) = Status.completed.

(** The futures were all submitted. *)
Definition in_run (p : pc) : bool :=
  match p with
  | PSubmit | PXLock _ | PXStatus _ | PXMsg _ | PXUnlock => false
  | _ => true
  end.

Definition after_loop (p : pc) : bool :=
  match p with
  | PFinLock | PFinStatus | PFinCurrent | PFinUnlock | PDone => true
  | _ => false
  end.

(** The future whose completion the driver has in hand. *)
Definition in_hand_ok (s : sys) : Prop :=
  match at_pc s with
  | PCheck i | PResult i _ => head (yielded s) = Some i
  | PLock r | PInc r | PExtend r =>
      ∃ i t0 t1, head (yielded s) = Some i ∧ futures s !! i = Some (FDone t0 t1 r)
  | PFound l =>
      ∃ i t0 t1, head (yielded s) = Some i ∧
                 futures s !! i = Some (FDone t0 t1 (Some l))
  | _ => True
  end.

Record Inv2 (stocks : list string) (s : sys) : Prop := mkInv2
  { i2_len : in_run (at_pc s) = true → ScanTask.status (task s) ≠ Status.error →
             length (futures s) = length stocks;
    i2_xstatus : match at_pc s with
                 | PXMsg _ | PXUnlock => ScanTask.status (task s) = Status.error
                 | PFinCurrent | PFinUnlock => ScanTask.status (task s) ≠ Status.error
                 | _ => True
                 end;
    i2_count : live s →
               ScanTask.processed_count (task s) + owed (at_pc s) = length (yielded s);
    i2_exhausted : live s → after_loop (at_pc s) = true →
                   length (yielded s) = length (futures s);
    i2_results : live s →
                 ScanTask.results (task s)
                 = flat_map (unit_result (futures s)) (rev (recorded s));
    i2_hand : in_hand_ok s;
    i2_flag : ScanTask.status (task s) = Status.cancelled →
              ScanTask.cancelled (task s) = true;
    i2_msg_none : ScanTask.status (task s) ≠ Status.error →
                  ScanTask.error_message (task s) = None;
    i2_msg_some : ScanTask.status (task s) = Status.error →
                  (∀ msg, at_pc s ≠ PXMsg msg) →
                  is_Some (ScanTask.error_message (task s));
    i2_current : ScanTask.status (task s) = Status.completed →
                 at_pc s = PFinUnlock ∨ at_pc s = PDone →
                 ScanTask.current_stock (task s) = None }.

(** A result row as one scan can produce it. *)
Definition item_ok (stocks : list string) (request : ScanRequest.t)
    (it : ScanResultItem.t) : Prop :=
  ScanResultItem.code it ∈ stocks ∧
  ScanResultItem.is_buy it = true ∧
  ScanResultItem.bsp_type it ∈ ScanRequest.bsp_types request ∧
  ScanResultItem.kline_type it = ScanRequest.kline_type request.

(** The run from [ex_appended] on: unit B fails, the driver finishes. *)
Definition ex_trace_rest : list label :=
  [LStart 1] ++ replicate 2 LDriver ++ [LMark 1; LFinish 1 None ex_now; LYield 1]
  ++ replicate 6 LDriver ++ replicate 5 LDriver.

Definition ex_appended_end : sys :=
  Eval vm_compute in
    default ex_init2
      (exec strptime_ymd_hm ["A"; "B"] (ex_request ["A"; "B"]) ex_trace_rest ex_appended).

(** [executor.submit] raises on the second unit; the outer [except] block
    runs to its end. *)
Definition ex_trace_submit_fails : list label :=
  LSubmitFail 1 "cannot schedule new futures after shutdown" :: replicate 4 LDriver.

Definition ex_error_end : sys :=
  Eval vm_compute in
    default ex_init2
      (exec strptime_ymd_hm ["A"; "B"] (ex_request ["A"; "B"]) ex_trace_submit_fails
         ex_init2).

(** What the futures hold and what was appended are rows of this scan. *)
Record Inv3 (stocks : list string) (request : ScanRequest.t) (s : sys) : Prop := mkInv3
  { i3_futures : ∀ i t0 t1 l,
      futures s !! i = Some (FDone t0 t1 (Some l)) →
      l ≠ [] ∧ Forall (item_ok stocks request) l ∧
      Forall (fun it => stocks !! i = Some (ScanResultItem.code it)) l;
    i3_results : Forall (item_ok stocks request) (ScanTask.results (task s)) }.

(** The steps the driver takes on its own. *)
Definition driver_label (l : label) : bool :=
  match l with
  | LDriver | LYield _ => true
  | _ => false
  end.

(** Every submitted unit has returned. *)
Definition all_done (s : sys) : Prop :=
  ∀ i g, futures s !! i = Some g → is_done g = true.

(** Both units have returned; the driver has not looked yet. *)
Definition ex_trace_all_back : list label :=
  [LDriver; LStart 0; LStart 1; LMark 0; LMark 1;
   LFinish 0 ex_engine_A ex_now; LFinish 1 None ex_now].

Definition ex_all_back : sys :=
  Eval vm_compute in
    default ex_init2
      (exec strptime_ymd_hm ["A"; "B"] (ex_request ["A"; "B"]) ex_trace_all_back ex_init2).

(** * Proofs *)

(** ** Filter engine: the store outside the visited object *)

Lemma heap_set_type_same h a v : heap_set_type h a v a = BSPoint.set_type v (h a).
Proof. unfold heap_set_type. by rewrite Nat.eqb_refl. Qed.

Lemma heap_set_type_other h a v b : b ≠ a → heap_set_type h a v b = h b.
Proof.
  intros Hne. unfold heap_set_type.
  destruct (Nat.eqb_spec b a); [contradiction | reflexivity].
Qed.

Lemma same_but_type_refl p : same_but_type p p.
Proof. by repeat split. Qed.

Lemma same_but_type_trans p q r :
  same_but_type p q → same_but_type q r → same_but_type p r.
Proof. unfold same_but_type. intros (?&?&?&?) (?&?&?&?). repeat split; congruence. Qed.

Lemma heap_set_type_fields h a v b : same_but_type (heap_set_type h a v b) (h b).
Proof.
  unfold heap_set_type. destruct (Nat.eqb_spec b a) as [->|_].
  - by repeat split.
  - apply same_but_type_refl.
Qed.

Lemma rewrite_type_other bsp_types vals h a b :
  b ≠ a → rewrite_type bsp_types vals h a b = h b.
Proof.
  intros Hne. unfold rewrite_type.
  destruct (1 <? length vals)%nat.
  - destruct (first_requested bsp_types vals); [by apply heap_set_type_other | done].
  - destruct vals; [done | by apply heap_set_type_other].
Qed.

Lemma rewrite_type_fields bsp_types vals h a b :
  same_but_type (rewrite_type bsp_types vals h a b) (h b).
Proof.
  unfold rewrite_type. destruct (1 <? length vals)%nat.
  - destruct (first_requested bsp_types vals);
      [apply heap_set_type_fields | apply same_but_type_refl].
  - destruct vals; [apply same_but_type_refl | apply heap_set_type_fields].
Qed.

Lemma str_in_true t xs : str_in t xs = true ↔ t ∈ xs.
Proof. unfold str_in. apply bool_decide_eq_true. Qed.

Lemma str_in_false t xs : str_in t xs = false ↔ t ∉ xs.
Proof. unfold str_in. apply bool_decide_eq_false. Qed.

Lemma type_matched_true bsp_types vals :
  type_matched bsp_types vals = true ↔ ∃ v, v ∈ vals ∧ v ∈ bsp_types.
Proof.
  unfold type_matched. rewrite existsb_exists. split.
  - intros (v & Hin & Hv). exists v. split; [by apply list_elem_of_In | by apply str_in_true].
  - intros (v & Hin & Hv). exists v. split; [by apply list_elem_of_In | by apply str_in_true].
Qed.

Lemma type_matched_false bsp_types vals :
  type_matched bsp_types vals = false ↔ ∀ v, v ∈ vals → v ∉ bsp_types.
Proof.
  split.
  - intros Hf v Hv Hin.
    assert (type_matched bsp_types vals = true) by (apply type_matched_true; eauto).
    congruence.
  - intros Hall. destruct (type_matched bsp_types vals) eqn:E; [|done].
    apply type_matched_true in E as (v & Hv & Hin). by destruct (Hall v Hv).
Qed.

(** The [for ... break] loop finds the first requested tag among [vals]. *)
Lemma first_requested_split bsp_types vals l1 t l2 :
  bsp_types = l1 ++ t :: l2 → t ∈ vals → (∀ x, x ∈ l1 → x ∉ vals) →
  first_requested bsp_types vals = Some t.
Proof.
  intros -> Ht Hl1. unfold first_requested.
  induction l1 as [|x l1 IH]; simpl.
  - by rewrite (proj2 (str_in_true t vals) Ht).
  - rewrite (proj2 (str_in_false x vals)); [|apply Hl1; left].
    apply IH. intros y Hy. apply Hl1. by right.
Qed.

Lemma first_requested_Some bsp_types vals t :
  first_requested bsp_types vals = Some t → t ∈ bsp_types ∧ t ∈ vals.
Proof.
  unfold first_requested. intros H. apply find_some in H as [Hin Ht].
  split; [by apply list_elem_of_In | by apply str_in_true].
Qed.

Lemma first_requested_matched bsp_types vals :
  type_matched bsp_types vals = true → is_Some (first_requested bsp_types vals).
Proof.
  intros (v & Hv & Hin)%type_matched_true.
  destruct (first_requested bsp_types vals) eqn:E; [eauto|].
  unfold first_requested in E.
  eapply find_none in E; [|apply list_elem_of_In, Hin].
  apply str_in_false in E. contradiction.
Qed.

(** After the assignment the tag of the visited object is a requested one. *)
Lemma rewrite_type_requested bsp_types vals h a :
  type_matched bsp_types vals = true →
  BSPoint.type (rewrite_type bsp_types vals h a a) ∈ bsp_types.
Proof.
  intros Hm. unfold rewrite_type.
  destruct (1 <? length vals)%nat eqn:Hlen.
  - destruct (first_requested_matched _ _ Hm) as [t Ht]. rewrite Ht.
    rewrite heap_set_type_same. simpl. by apply first_requested_Some in Ht as [? _].
  - apply Nat.ltb_ge in Hlen. destruct vals as [|v [|w vals]]; simpl in *; [| |lia].
    + discriminate.
    + rewrite heap_set_type_same. simpl.
      rewrite orb_false_r in Hm. by apply str_in_true.
Qed.

Lemma rewrite_type_at bsp_types vals h g a :
  g a = h a → rewrite_type bsp_types vals g a a = rewrite_type bsp_types vals h a a.
Proof.
  intros Hsame. unfold rewrite_type.
  destruct (1 <? length vals)%nat.
  - destruct (first_requested _ _); [|done]. by rewrite !heap_set_type_same, Hsame.
  - destruct vals; [done|]. by rewrite !heap_set_type_same, Hsame.
Qed.

Section FilterFacts.
Variable strptime : string -> option Z.
Variable bsp_types : list string.
Variable cutoff : Z.

Abbreviation visit := (filter_visit strptime bsp_types cutoff).
Abbreviation loop := (filter_loop strptime bsp_types cutoff).

Lemma filter_visit_other h a b : b ≠ a → (visit h a).1 b = h b.
Proof.
  intros Hne. unfold filter_visit.
  destruct (negb (BSPoint.is_buy (h a))); [done|].
  destruct (negb (type_matched _ _)); [done|].
  destruct (strptime _); simpl; by apply rewrite_type_other.
Qed.

Lemma filter_visit_fields h a b : same_but_type ((visit h a).1 b) (h b).
Proof.
  unfold filter_visit.
  destruct (negb (BSPoint.is_buy (h a))); [apply same_but_type_refl|].
  destruct (negb (type_matched _ _)); [apply same_but_type_refl|].
  destruct (strptime _); simpl; apply rewrite_type_fields.
Qed.

(** A requested tag stays requested, on every object. *)
Lemma filter_visit_requested h a b :
  BSPoint.type (h b) ∈ bsp_types → BSPoint.type ((visit h a).1 b) ∈ bsp_types.
Proof.
  intros Hb. unfold filter_visit.
  destruct (negb (BSPoint.is_buy (h a))); [done|].
  destruct (type_matched _ _) eqn:Hm; simpl; [|done].
  assert (BSPoint.type
            (rewrite_type bsp_types (bsp_type_values (BSPoint.type (h a))) h a b)
          ∈ bsp_types) as Hgoal.
  { destruct (decide (b = a)) as [->|Hne].
    - by apply rewrite_type_requested.
    - by rewrite rewrite_type_other. }
  by destruct (strptime _).
Qed.

Lemma filter_visit_kept h a :
  (visit h a).2 = true → BSPoint.type ((visit h a).1 a) ∈ bsp_types.
Proof.
  unfold filter_visit.
  destruct (negb (BSPoint.is_buy (h a))); [done|].
  destruct (type_matched _ _) eqn:Hm; simpl; [|done].
  intros _.
  assert (BSPoint.type
            (rewrite_type bsp_types (bsp_type_values (BSPoint.type (h a))) h a a)
          ∈ bsp_types) by by apply rewrite_type_requested.
  by destruct (strptime _).
Qed.

Lemma filter_loop_cons h a rest :
  loop h (a :: rest) =
    ((loop (visit h a).1 rest).1,
     if (visit h a).2 then a :: (loop (visit h a).1 rest).2
     else (loop (visit h a).1 rest).2).
Proof.
  simpl. destruct (visit h a) as [h1 keep]. simpl.
  by destruct (loop h1 rest).
Qed.

Lemma filter_loop_sublist h refs : (loop h refs).2 `sublist_of` refs.
Proof.
  revert h. induction refs as [|a rest IH]; intros h.
  - simpl. constructor.
  - rewrite filter_loop_cons. simpl.
    destruct ((visit h a).2); [apply sublist_skip | apply sublist_cons]; apply IH.
Qed.

Lemma filter_loop_other h refs b : b ∉ refs → (loop h refs).1 b = h b.
Proof.
  revert h. induction refs as [|a rest IH]; intros h Hb; [done|].
  rewrite filter_loop_cons. simpl.
  apply not_elem_of_cons in Hb as [Hne Hb].
  rewrite IH by done. by apply filter_visit_other.
Qed.

Lemma filter_loop_fields h refs b : same_but_type ((loop h refs).1 b) (h b).
Proof.
  revert h. induction refs as [|a rest IH]; intros h; [apply same_but_type_refl|].
  rewrite filter_loop_cons. simpl.
  eapply same_but_type_trans; [apply IH | apply filter_visit_fields].
Qed.

Lemma filter_loop_requested h refs b :
  BSPoint.type (h b) ∈ bsp_types → BSPoint.type ((loop h refs).1 b) ∈ bsp_types.
Proof.
  revert h. induction refs as [|a rest IH]; intros h Hb; [done|].
  rewrite filter_loop_cons. simpl. by apply IH, filter_visit_requested.
Qed.

Lemma filter_loop_out_requested h refs a :
  a ∈ (loop h refs).2 → BSPoint.type ((loop h refs).1 a) ∈ bsp_types.
Proof.
  revert h. induction refs as [|b rest IH]; intros h.
  - simpl. by intros ?%elem_of_nil.
  - rewrite filter_loop_cons. simpl.
    destruct ((visit h b).2) eqn:Hkeep.
    + intros [->|Hin]%elem_of_cons; [|by apply IH].
      by apply filter_loop_requested, filter_visit_kept.
    + apply IH.
Qed.

(** A visit only reads the visited object. *)
Lemma filter_visit_agree h g a :
  g a = h a →
  (visit g a).2 = (visit h a).2 ∧ (visit g a).1 a = (visit h a).1 a.
Proof.
  intros Hsame. unfold filter_visit. rewrite Hsame.
  destruct (negb (BSPoint.is_buy (h a))); [done|].
  destruct (negb (type_matched _ _)); [done|].
  rewrite (rewrite_type_at bsp_types _ h g a Hsame).
  destruct (strptime _); simpl; (split; [done | by apply rewrite_type_at]).
Qed.

(** Without aliasing, the fate of an object is that of its one visit. *)
Lemma filter_loop_at h refs a :
  NoDup refs → a ∈ refs →
  (loop h refs).1 a = (visit h a).1 a ∧
  (a ∈ (loop h refs).2 ↔ (visit h a).2 = true).
Proof.
  revert h. induction refs as [|b rest IH]; intros h Hnd Ha.
  - by apply elem_of_nil in Ha.
  - apply NoDup_cons in Hnd as [Hb Hnd]. rewrite filter_loop_cons. simpl.
    destruct (decide (a = b)) as [->|Hne].
    + split; [by apply filter_loop_other|].
      assert (b ∉ (loop (visit h b).1 rest).2) as Hout.
      { intros Hin. apply Hb. eapply elem_of_sublist; [done | apply filter_loop_sublist]. }
      destruct ((visit h b).2); split; try done.
      * intros _. by left.
    + apply elem_of_cons in Ha as [?|Ha]; [done|].
      destruct (IH (visit h b).1 Hnd Ha) as [IH1 IH2].
      assert ((visit h b).1 a = h a) as Hsame by by apply filter_visit_other.
      destruct (filter_visit_agree h (visit h b).1 a Hsame) as [Hv1 Hv2].
      rewrite IH1, Hv2. split; [done|].
      rewrite Hv1 in IH2. rewrite <- IH2.
      destruct ((visit h b).2); [|done].
      rewrite elem_of_cons. split; [by intros [?|?] | by right].
Qed.
End FilterFacts.

Lemma cutoff_time_Some now days cutoff :
  cutoff_time now days = Some cutoff → cutoff = (now - days * US_PER_DAY)%Z.
Proof.
  unfold cutoff_time, timedelta_days, datetime_sub.
  destruct (Z.abs days <=? MAX_DELTA_DAYS)%Z; simpl; [|done].
  destruct (_ && _); [|done]. by intros [= <-].
Qed.

Example ex_now_parsed : strptime_ymd_hm "2024/01/15 12:00" = Some ex_now.
Proof. reflexivity. Qed.

(** ** Tag extraction from a packed text *)

Lemma no_quote_app s1 s2 :
  no_quote (s1 ++ s2)%string = no_quote s1 && no_quote s2.
Proof.
  induction s1 as [|c s1 IH]; simpl; [done|].
  rewrite IH. by rewrite andb_assoc.
Qed.

Lemma string_app_cons c (s1 s2 : string) :
  (String c s1 ++ s2)%string = String c (s1 ++ s2)%string.
Proof. reflexivity. Qed.

Lemma string_app_assoc (s1 s2 s3 : string) :
  ((s1 ++ s2) ++ s3)%string = (s1 ++ (s2 ++ s3))%string.
Proof.
  induction s1 as [|c s1 IH]; [done|].
  by rewrite !string_app_cons, IH.
Qed.

Lemma string_app_empty_r (s : string) : (s ++ EmptyString)%string = s.
Proof.
  induction s as [|c s IH]; [done|]. by rewrite string_app_cons, IH.
Qed.

(** Quote-free text neither opens nor closes a match. *)
Lemma findall_skip_outside s rest :
  no_quote s = true →
  findall_quoted_from None (s ++ rest)%string = findall_quoted_from None rest.
Proof.
  induction s as [|c s IH]; simpl; [done|].
  intros [Hc Hs]%andb_true_iff. apply negb_true_iff in Hc. rewrite Hc. by apply IH.
Qed.

Lemma findall_skip_inside g s rest :
  no_quote s = true →
  findall_quoted_from (Some g) (s ++ rest)%string
  = findall_quoted_from (Some (g ++ s)%string) rest.
Proof.
  revert g. induction s as [|c s IH]; intros g; simpl.
  - by rewrite string_app_empty_r.
  - intros [Hc Hs]%andb_true_iff. apply negb_true_iff in Hc. rewrite Hc.
    rewrite IH by done. by rewrite string_app_assoc.
Qed.

Lemma findall_no_quote acc s :
  no_quote s = true → findall_quoted_from acc s = [].
Proof.
  revert acc. induction s as [|c s IH]; intros acc; simpl; [done|].
  intros [Hc Hs]%andb_true_iff. apply negb_true_iff in Hc. rewrite Hc.
  destruct acc; by apply IH.
Qed.

Lemma findall_pack segs tail :
  Forall (fun st => no_quote st.1 = true ∧ no_quote st.2 = true ∧ st.2 ≠ EmptyString) segs →
  no_quote tail = true →
  findall_quoted_from None (pack_tags segs tail) = map snd segs.
Proof.
  intros Hsegs Htail. induction Hsegs as [|[sep t] segs (Hsep & Ht & Hne) _ IH]; simpl.
  - by apply findall_no_quote.
  - simpl in *. rewrite findall_skip_outside by done. simpl.
    rewrite findall_skip_inside by done. simpl.
    destruct t as [|c t]; [done|]. simpl. by rewrite IH.
Qed.

Example packed_tags_extracted :
  bsp_type_values (BSPoint.type ex_packed) = ["2"; "3a"].
Proof. reflexivity. Qed.

Example packed_3a_first :
  emitted_types (filter_buy_points strptime_ymd_hm ex_now (heap_of_list [ex_packed])
                   [0] ["3a"; "2"] 3) = Some ["3a"].
Proof. reflexivity. Qed.

Example packed_2_first :
  emitted_types (filter_buy_points strptime_ymd_hm ex_now (heap_of_list [ex_packed])
                   [0] ["2"; "3a"] 3) = Some ["2"].
Proof. reflexivity. Qed.

Example packed_none_accepted :
  emitted_types (filter_buy_points strptime_ymd_hm ex_now (heap_of_list [ex_packed])
                   [0] ["1"] 3) = Some [].
Proof. reflexivity. Qed.

(** C4.  A buy point whose type text packs several tags (each between
    single quotes, as in the [repr] of a list of enum members) is emitted
    with its tag rewritten to the first tag of the requested list that
    occurs among the packed ones; a point none of whose packed tags is
    requested is dropped. *)
Theorem filter_rewrites_to_first_requested
    (strptime : string → option Z) (now days cutoff : Z) (h : heap)
    (bs_points : list nat) (bsp_types : list string) (a : nat)
    (segs : list (string * string)) (tail : string) :
  cutoff_time now days = Some cutoff →
  NoDup bs_points → a ∈ bs_points →
  BSPoint.is_buy (h a) = true →
  BSPoint.type (h a) = pack_tags segs tail →
  1 < length segs →
  Forall (fun st => no_quote st.1 = true ∧ no_quote st.2 = true ∧ st.2 ≠ EmptyString) segs →
  no_quote tail = true →
  ∃ h' out,
    filter_buy_points strptime now h bs_points bsp_types days = Some (h', out) ∧
    ((∀ v, v ∈ map snd segs → v ∉ bsp_types) → a ∉ out) ∧
    (∀ l1 t l2,
        bsp_types = l1 ++ t :: l2 →
        t ∈ map snd segs →
        (∀ x, x ∈ l1 → x ∉ map snd segs) →
        BSPoint.type (h' a) = t ∧
        (a ∈ out ↔ ∃ ts, strptime (BSPoint.time (h a)) = Some ts ∧ (cutoff ≤ ts)%Z)).
Proof.
  intros Hcut Hnd Ha Hbuy Htype Hseveral Hsegs Htail.
  assert (bsp_type_values (BSPoint.type (h a)) = map snd segs) as Hvals.
  { rewrite Htype. unfold bsp_type_values, findall_quoted.
    rewrite findall_pack by done. destruct segs; [simpl in Hseveral; lia | done]. }
  unfold filter_buy_points. rewrite Hcut. simpl.
  destruct (filter_loop strptime bsp_types cutoff h bs_points) as [h' out] eqn:Hloop.
  exists h', out. split; [done|].
  destruct (filter_loop_at strptime bsp_types cutoff h bs_points a Hnd Ha) as [Hh Hout].
  rewrite Hloop in Hh, Hout. simpl in Hh, Hout.
  split.
  - intros Hnone. rewrite Hout.
    unfold filter_visit. rewrite Hbuy, Hvals.
    rewrite (proj2 (type_matched_false bsp_types (map snd segs)) Hnone). simpl. done.
  - intros l1 t l2 Hsplit Ht Hl1.
    pose proof (first_requested_split _ _ _ _ _ Hsplit Ht Hl1) as Hfirst.
    assert (type_matched bsp_types (map snd segs) = true) as Hm.
    { apply type_matched_true. exists t. split; [done|].
      rewrite Hsplit. apply elem_of_app. right. by left. }
    assert (rewrite_type bsp_types (map snd segs) h a a = BSPoint.set_type t (h a)) as Hrw.
    { unfold rewrite_type. rewrite length_map.
      rewrite (proj2 (Nat.ltb_lt _ _) Hseveral), Hfirst.
      apply heap_set_type_same. }
    rewrite Hh, Hout. unfold filter_visit. rewrite Hbuy, Hvals, Hm. simpl. rewrite Hrw. simpl.
    destruct (strptime (BSPoint.time (h a))) as [ts|]; simpl; rewrite Hrw; simpl.
    + split; [done|]. rewrite Z.leb_le. split; [eauto|]. by intros (? & [= <-] & ?).
    + split; [done|]. split; [done|]. by intros (? & ? & _).
Qed.

(** The point packing 2 and 3a: with the requested order 3a, 2 it is
    emitted as 3a; with only 1 requested it is dropped. *)
Lemma filter_rewrites_to_first_requested_witness :
  (∃ h' out,
     filter_buy_points strptime_ymd_hm ex_now (heap_of_list [ex_packed]) [0]
       ["3a"; "2"] 3 = Some (h', out) ∧
     BSPoint.type (h' 0) = "3a" ∧ 0 ∈ out) ∧
  (∃ h' out,
     filter_buy_points strptime_ymd_hm ex_now (heap_of_list [ex_packed]) [0]
       ["1"] 3 = Some (h', out) ∧
     0 ∉ out).
Proof.
  assert (Forall (fun st : string * string =>
                    no_quote st.1 = true ∧ no_quote st.2 = true ∧ st.2 ≠ EmptyString)
            [("[<BSP_TYPE.T2: ", "2"); (">, <BSP_TYPE.T3A: ", "3a")]) as Hsegs.
  { repeat constructor; discriminate. }
  split.
  - destruct (filter_rewrites_to_first_requested strptime_ymd_hm ex_now 3
                63840657600000000 (heap_of_list [ex_packed]) [0] ["3a"; "2"] 0
                [("[<BSP_TYPE.T2: ", "2"); (">, <BSP_TYPE.T3A: ", "3a")] ">]")
      as (h' & out & Hcall & _ & Hfirst).
    + reflexivity.
    + apply NoDup_singleton.
    + apply list_elem_of_singleton. reflexivity.
    + reflexivity.
    + reflexivity.
    + simpl. lia.
    + exact Hsegs.
    + reflexivity.
    + exists h', out. split; [exact Hcall|].
      destruct (Hfirst [] "3a" ["2"]) as [Htype Hout].
      * reflexivity.
      * simpl. apply elem_of_cons. right. apply list_elem_of_singleton. reflexivity.
      * intros x Hx. by apply elem_of_nil in Hx.
      * split; [exact Htype|]. apply Hout.
        exists 63840825000000000%Z. split; [reflexivity | lia].
  - destruct (filter_rewrites_to_first_requested strptime_ymd_hm ex_now 3
                63840657600000000 (heap_of_list [ex_packed]) [0] ["1"] 0
                [("[<BSP_TYPE.T2: ", "2"); (">, <BSP_TYPE.T3A: ", "3a")] ">]")
      as (h' & out & Hcall & Hdrop & _).
    + reflexivity.
    + apply NoDup_singleton.
    + apply list_elem_of_singleton. reflexivity.
    + reflexivity.
    + reflexivity.
    + simpl. lia.
    + exact Hsegs.
    + reflexivity.
    + exists h', out. split; [exact Hcall|]. apply Hdrop.
      intros v Hv Hin. apply list_elem_of_singleton in Hin. subst v.
      simpl in Hv. apply elem_of_cons in Hv as [Hv|Hv]; [discriminate|].
      apply list_elem_of_singleton in Hv. discriminate.
Defined.

(** C7.  The recency test is [bsp_time >= cutoff_time]: a matching buy
    point stamped exactly [now - window] is kept, an earlier one is
    dropped. *)
Theorem filter_recency_boundary_inclusive
    (strptime : string → option Z) (now days cutoff : Z) (h : heap)
    (bs_points : list nat) (bsp_types : list string) (a : nat) (ts : Z) :
  cutoff_time now days = Some cutoff →
  NoDup bs_points → a ∈ bs_points →
  BSPoint.is_buy (h a) = true →
  type_matched bsp_types (bsp_type_values (BSPoint.type (h a))) = true →
  strptime (BSPoint.time (h a)) = Some ts →
  ∃ h' out,
    filter_buy_points strptime now h bs_points bsp_types days = Some (h', out) ∧
    (ts = (now - days * US_PER_DAY)%Z → a ∈ out) ∧
    ((ts < now - days * US_PER_DAY)%Z → a ∉ out) ∧
    (a ∈ out ↔ (now - days * US_PER_DAY ≤ ts)%Z).
Proof.
  intros Hcut Hnd Ha Hbuy Hm Hts.
  pose proof (cutoff_time_Some _ _ _ Hcut) as Hc.
  unfold filter_buy_points. rewrite Hcut. simpl.
  destruct (filter_loop strptime bsp_types cutoff h bs_points) as [h' out] eqn:Hloop.
  exists h', out. split; [done|].
  destruct (filter_loop_at strptime bsp_types cutoff h bs_points a Hnd Ha) as [_ Hout].
  rewrite Hloop in Hout. simpl in Hout.
  assert (a ∈ out ↔ (cutoff ≤ ts)%Z) as Hiff.
  { rewrite Hout. unfold filter_visit. rewrite Hbuy, Hm. simpl.
    destruct (rewrite_type_fields bsp_types (bsp_type_values (BSPoint.type (h a))) h a a)
      as [Htime _].
    rewrite Htime, Hts. simpl. apply Z.leb_le. }
  rewrite <- Hc. split; [|split]; [| |done].
  - intros ->. apply Hiff. lia.
  - intros Hlt Hin. apply Hiff in Hin. lia.
Qed.

Lemma filter_recency_boundary_inclusive_witness :
  ∃ h' out,
    filter_buy_points strptime_ymd_hm ex_now (heap_of_list [ex_late; ex_edge]) [0; 1]
      ["1"] 3 = Some (h', out) ∧
    ((63840657600000000 = ex_now - 3 * US_PER_DAY)%Z → 1 ∈ out) ∧
    ((63840657600000000 < ex_now - 3 * US_PER_DAY)%Z → 1 ∉ out) ∧
    (1 ∈ out ↔ (ex_now - 3 * US_PER_DAY ≤ 63840657600000000)%Z).
Proof.
  apply (filter_recency_boundary_inclusive strptime_ymd_hm ex_now 3
           63840657600000000 (heap_of_list [ex_late; ex_edge]) [0; 1] ["1"] 1
           63840657600000000).
  - reflexivity.
  - apply NoDup_cons. split; [|apply NoDup_singleton].
    intros H%list_elem_of_singleton. discriminate.
  - apply elem_of_cons. right. apply list_elem_of_singleton. reflexivity.
  - reflexivity.
  - reflexivity.
  - reflexivity.
Defined.

Example edge_kept_late_dropped :
  option_map snd (filter_buy_points strptime_ymd_hm ex_now
                    (heap_of_list [ex_late; ex_edge]) [0; 1] ["1"] 3) = Some [1].
Proof. reflexivity. Qed.

Lemma Inv_init task_id stocks now : Inv stocks (init_sys task_id stocks now).
Proof.
  constructor; simpl; try done.
  - lia.
  - constructor.
  - intros i Hi. by apply elem_of_nil in Hi.
Qed.

Lemma bounded_nodup_length (l : list nat) n :
  NoDup l → (∀ i, i ∈ l → i < n) → length l ≤ n.
Proof.
  intros Hnd Hlt. trans (length (seq 0 n)); [|by rewrite length_seq].
  apply submseteq_length, NoDup_submseteq; [done|].
  intros i Hi. apply elem_of_seq. specialize (Hlt i Hi). lia.
Qed.

Lemma Inv_yielded_le stocks s : Inv stocks s → length (yielded s) ≤ length (futures s).
Proof.
  intros HI. apply bounded_nodup_length; [apply HI|].
  intros i Hi. destruct (inv_done _ _ HI i Hi) as (t0 & t1 & r & Hl).
  by apply lookup_lt_Some in Hl.
Qed.

Section SchedulerFacts.
Variable strptime : string -> option Z.
Variable stocks : list string.
Variable request : ScanRequest.t.

Abbreviation step := (step strptime stocks request).
Abbreviation exec := (exec strptime stocks request).
Abbreviation driver_step := (driver_step stocks).

(** A future that is not done yet is replaced. *)
Lemma Inv_set_future s i f g :
  Inv stocks s → futures s !! i = Some g → is_done g = false →
  Inv stocks (set_future i f s).
Proof.
  intros HI Hi Hg. destruct HI. constructor; simpl; try done.
  - by rewrite length_insert.
  - intros j Hj. destruct (inv_done0 j Hj) as (t0 & t1 & r & Hl).
    exists t0, t1, r. rewrite list_lookup_insert_ne; [done|].
    intros ->. rewrite Hi in Hl. injection Hl as ->. done.
Qed.

Lemma Inv_driver_step s s' : Inv stocks s → driver_step s = Some s' → Inv stocks s'.
Proof.
  intros HI Hstep. pose proof (Inv_yielded_le _ _ HI) as Hle.
  destruct HI. unfold driver_step, acquire, release in Hstep.
  destruct (at_pc s) eqn:Hpc; simpl in *;
    repeat match type of Hstep with
      | context [if ?c then _ else _] => destruct c eqn:?
      | context [match ?c with _ => _ end] => destruct c eqn:?
      end;
    simplify_eq; constructor; simpl; try done; try lia;
    try (intros ? [=]);
    try (exfalso; destruct (inv_done0 _ (inv_handled0 _ eq_refl)) as (?&?&?&?);
         congruence).
  - by rewrite length_replicate.
  - destruct (inv_submit0 eq_refl) as [-> _]. by intros ? ?%elem_of_nil.
  - rewrite length_app. simpl. lia.
Qed.

Lemma Inv_step l s s' : Inv stocks s → step l s = Some s' → Inv stocks s'.
Proof.
  intros HI Hstep. destruct l; simpl in Hstep.
  - (* LTick *) simplify_eq. by destruct HI.
  - (* LStart *)
    destruct (futures s !! i) as [[]|] eqn:Hi; try done.
    destruct (busy_workers s <? MAX_WORKERS); [|done].
    destruct (ScanTask.cancelled (task s)); simplify_eq;
      by eapply Inv_set_future.
  - (* LMark *)
    destruct (futures s !! i) as [[]|] eqn:Hi; try done.
    destruct (stocks !! i); [|done]. destruct (lock s) eqn:Hl; [done|].
    simplify_eq. eapply (Inv_set_future _ _ _ (FStarted t0)); [|done..].
    by destruct HI.
  - (* LFinish *)
    destruct (futures s !! i) as [[]|] eqn:Hi; try done.
    destruct (stocks !! i); [|done]. simplify_eq.
    by eapply Inv_set_future.
  - (* LYield *)
    destruct (at_pc s) eqn:Hpc; try done.
    destruct (futures s !! i) as [[]|] eqn:Hi; try done.
    case_bool_decide as Hy; [done|]. simplify_eq.
    destruct HI. rewrite Hpc in *. constructor; simpl in *; try done.
    + by apply NoDup_cons.
    + intros j [->|Hj]%elem_of_cons; eauto.
    + intros j [= <-]. by left.
    + lia.
  - (* LSubmitFail *)
    destruct (at_pc s) eqn:Hpc; try done.
    destruct (k <? length stocks) eqn:Hk; [|done]. simplify_eq.
    apply Nat.ltb_lt in Hk.
    destruct HI. rewrite Hpc in *.
    destruct (inv_submit0 eq_refl) as [Hy Hp].
    constructor; simpl in *; try done.
    + rewrite length_replicate. lia.
    + rewrite Hy. by intros ? ?%elem_of_nil.
  - (* LCancelCheck *)
    case_decide; simplify_eq; [by destruct HI | done].
  - (* LCancelSet *)
    destruct (cancel_calls s); [done|]. destruct (lock s); [done|].
    simplify_eq. by destruct HI.
  - (* LDriver *) by eapply Inv_driver_step.
Qed.

Lemma exec_app tr1 tr2 s :
  exec (tr1 ++ tr2) s = (s' ← exec tr1 s; exec tr2 s').
Proof.
  revert s. induction tr1 as [|l tr1 IH]; intros s; simpl; [done|].
  destruct (step l s); simpl; [apply IH | done].
Qed.

Lemma Inv_exec tr s s' : Inv stocks s → exec tr s = Some s' → Inv stocks s'.
Proof.
  revert s. induction tr as [|l tr IH]; intros s HI; simpl.
  - by intros [= <-].
  - destruct (step l s) as [s1|] eqn:Hs; simpl; [|done].
    apply IH. by eapply Inv_step.
Qed.

Lemma Inv_reachable task_id now tr s :
  exec tr (init_sys task_id stocks now) = Some s → Inv stocks s.
Proof. apply Inv_exec, Inv_init. Qed.

(** [processed_count] never passes [total_count]. *)
Lemma Inv_processed_le_total s :
  Inv stocks s →
  ScanTask.processed_count (task s) ≤ ScanTask.total_count (task s).
Proof.
  intros HI. pose proof (Inv_yielded_le _ _ HI). destruct HI. lia.
Qed.

(** *** Mutations and the lock *)

Lemma mutation_under_lock l s s' :
  Inv stocks s → step l s = Some s' → counters s' ≠ counters s →
  lock s = true ∧ lock s' = true.
Proof.
  intros HI Hstep Hne.
  pose proof (inv_lock _ _ HI) as Hl.
  pose proof (inv_lock _ _ (Inv_step _ _ _ HI Hstep)) as Hl'.
  rewrite Hl, Hl'. clear Hl Hl' HI.
  unfold counters in Hne.
  destruct l; simpl in Hstep;
    try (unfold driver_step, acquire, release in Hstep);
    repeat match type of Hstep with
      | context [if ?c then _ else _] => destruct c eqn:?
      | context [match ?c with _ => _ end] => destruct c eqn:?
      end;
    simplify_eq; simpl in *; try done.
Qed.

(** *** The status once written *)

Lemma terminal_step l s s' :
  Inv stocks s → Status.is_terminal (ScanTask.status (task s)) = true →
  step l s = Some s' → ScanTask.status (task s') = ScanTask.status (task s).
Proof.
  intros HI Hterm Hstep.
  pose proof (inv_status _ _ HI) as Hw. rewrite Hterm in Hw. clear HI.
  destruct l; simpl in Hstep;
    try (unfold driver_step, acquire, release in Hstep);
    repeat match type of Hstep with
      | context [if ?c then _ else _] => destruct c eqn:?
      | context [match ?c with _ => _ end] => destruct c eqn:?
      end;
    simplify_eq; simpl in *; try done.
Qed.

Lemma terminal_exec tr s s' :
  Inv stocks s → Status.is_terminal (ScanTask.status (task s)) = true →
  exec tr s = Some s' → ScanTask.status (task s') = ScanTask.status (task s).
Proof.
  revert s. induction tr as [|l tr IH]; intros s HI Hterm; simpl.
  - by intros [= <-].
  - destruct (step l s) as [s1|] eqn:Hs; simpl; [|done]. intros Hex.
    pose proof (terminal_step _ _ _ HI Hterm Hs) as Heq.
    rewrite <- Heq. apply IH; [by eapply Inv_step | by rewrite Heq | done].
Qed.

(** *** After the cancel flag is set *)

Lemma cancelled_step l s s' :
  step l s = Some s' → ScanTask.cancelled (task s) = true →
  ScanTask.cancelled (task s') = true.
Proof.
  intros Hstep Hc.
  destruct l; simpl in Hstep;
    try (unfold driver_step, acquire, release in Hstep);
    repeat match type of Hstep with
      | context [if ?c then _ else _] => destruct c eqn:?
      | context [match ?c with _ => _ end] => destruct c eqn:?
      end;
    simplify_eq; simpl in *; try done.
Qed.

Lemma in_hand_step l s s' :
  step l s = Some s' → ScanTask.cancelled (task s) = true →
  ScanTask.processed_count (task s') + in_hand (at_pc s')
  ≤ ScanTask.processed_count (task s) + in_hand (at_pc s).
Proof.
  intros Hstep Hc.
  destruct l; simpl in Hstep;
    try (unfold driver_step, acquire, release in Hstep);
    repeat match type of Hstep with
      | context [if ?c then _ else _] => destruct c eqn:?
      | context [match ?c with _ => _ end] => destruct c eqn:?
      end;
    simplify_eq; simpl in *; try done; try lia.
Qed.

Lemma in_hand_exec tr s s' :
  exec tr s = Some s' → ScanTask.cancelled (task s) = true →
  ScanTask.cancelled (task s') = true ∧
  ScanTask.processed_count (task s') + in_hand (at_pc s')
  ≤ ScanTask.processed_count (task s) + in_hand (at_pc s).
Proof.
  revert s. induction tr as [|l tr IH]; intros s; simpl.
  - intros [= <-] Hc. split; [done | lia].
  - destruct (step l s) as [s1|] eqn:Hs; simpl; [|done]. intros Hex Hc.
    pose proof (cancelled_step _ _ _ Hs Hc) as Hc1.
    pose proof (in_hand_step _ _ _ Hs Hc).
    destruct (IH _ Hex Hc1). split; [done | lia].
Qed.

Lemma winding_down_step l s s' :
  winding_down s → step l s = Some s' →
  winding_down s' ∧ counters s' = counters s.
Proof.
  intros [Hc Hpc] Hstep. unfold winding_down, counters.
  destruct l; simpl in Hstep;
    try (unfold driver_step, acquire, release in Hstep);
    repeat match type of Hstep with
      | context [if ?c then _ else _] => destruct c eqn:?
      | context [match ?c with _ => _ end] => destruct c eqn:?
      end;
    simplify_eq; simpl in *; try done;
    repeat match goal with H : at_pc _ = _ |- _ => rewrite H in * end;
    try done.
Qed.

Lemma winding_down_exec tr s s' :
  winding_down s → exec tr s = Some s' →
  winding_down s' ∧ counters s' = counters s.
Proof.
  revert s. induction tr as [|l tr IH]; intros s Hw; simpl.
  - by intros [= <-].
  - destruct (step l s) as [s1|] eqn:Hs; simpl; [|done]. intros Hex.
    destruct (winding_down_step _ _ _ Hw Hs) as [Hw1 Heq1].
    destruct (IH _ Hw1 Hex) as [Hw2 Heq2]. split; [done | congruence].
Qed.

(** From the loop head the driver, once [as_completed] returns or is
    exhausted, runs to the end on its own. *)
Lemma break_after_yield s i t0 t1 r :
  Inv stocks s → ScanTask.cancelled (task s) = true → at_pc s = PNext →
  futures s !! i = Some (FDone t0 t1 r) → i ∉ yielded s →
  ∃ s', exec (LYield i :: replicate 5 LDriver) s = Some s' ∧
        at_pc s' = PDone ∧ ScanTask.status (task s') = Status.cancelled ∧
        counters s' = counters s.
Proof.
  intros HI Hc Hpc Hi Hy.
  pose proof (inv_lock _ _ HI) as Hl. rewrite Hpc in Hl. simpl in Hl.
  destruct s as [k lk fs ys p c n]. simpl in *. subst.
  eexists. split.
  - simpl. rewrite Hi. rewrite bool_decide_eq_false_2 by done. simpl.
    unfold driver_step; simpl. rewrite Hc. simpl.
    unfold driver_step, acquire; simpl. reflexivity.
  - simpl. rewrite Hc. done.
Qed.

Lemma finish_when_exhausted s :
  Inv stocks s → ScanTask.cancelled (task s) = true → at_pc s = PNext →
  length (yielded s) = length (futures s) →
  ∃ s', exec (replicate 5 LDriver) s = Some s' ∧
        at_pc s' = PDone ∧ ScanTask.status (task s') = Status.cancelled ∧
        counters s' = counters s.
Proof.
  intros HI Hc Hpc Hlen.
  pose proof (inv_lock _ _ HI) as Hl. rewrite Hpc in Hl. simpl in Hl.
  destruct s as [k lk fs ys p c n]. simpl in *. subst.
  eexists. split.
  - simpl. unfold driver_step; simpl. rewrite Hlen, Nat.eqb_refl. simpl.
    unfold driver_step, acquire; simpl. reflexivity.
  - simpl. rewrite Hc. done.
Qed.
End SchedulerFacts.

(** ** The claims about the scheduler *)

(** C1 fails as stated: between [results.extend] and [found_count +=] a
    reader, who takes no lock, sees one result and [found_count] 0. *)
Lemma found_count_lags_results_counterexample :
  exec strptime_ymd_hm ["A"; "B"] (ex_request ["A"; "B"]) ex_trace_appended ex_init2
    = Some ex_appended ∧
  lock ex_appended = true ∧
  ScanResultResponse.results (ScanTask.to_result (task ex_appended) 1%float) = [ex_item] ∧
  ScanResultResponse.total_found (ScanTask.to_result (task ex_appended) 1%float) = 0 ∧
  ScanTask.found_count (task ex_appended) ≠ length (ScanTask.results (task ex_appended)).
Proof. split_and!; try (vm_compute; reflexivity). vm_compute. discriminate. Qed.

(** C1, amended.  In every state the task goes through,
    [processed_count <= total_count] and [found_count <= len(results)];
    whenever the task lock is free, [found_count = len(results)]; and a
    step that changes a counter or the result list is taken with the lock
    held, before and after. *)
Theorem counters_consistent_when_lock_free
    (strptime : string → option Z) (stocks : list string) (request : ScanRequest.t)
    (task_id : string) (now : float) (tr : list label) (s : sys) :
  exec strptime stocks request tr (init_sys task_id stocks now) = Some s →
  ScanTask.processed_count (task s) ≤ ScanTask.total_count (task s) ∧
  ScanTask.found_count (task s) ≤ length (ScanTask.results (task s)) ∧
  (lock s = false →
   ScanTask.found_count (task s) = length (ScanTask.results (task s))) ∧
  (∀ l s', step strptime stocks request l s = Some s' →
           counters s' ≠ counters s → lock s = true ∧ lock s' = true).
Proof.
  intros Hex. pose proof (Inv_reachable _ _ _ _ _ _ _ Hex) as HI.
  split; [by apply (Inv_processed_le_total stocks)|].
  pose proof (inv_found _ _ HI) as Hf. pose proof (inv_lock _ _ HI) as Hl.
  split; [lia|]. split.
  - intros Hfree. rewrite Hfree in Hl.
    destruct (at_pc s); simpl in *; try done; lia.
  - intros l s'. by apply mutation_under_lock.
Qed.

Lemma counters_consistent_when_lock_free_witness :
  ScanTask.processed_count (task ex_final) ≤ ScanTask.total_count (task ex_final) ∧
  ScanTask.found_count (task ex_final) ≤ length (ScanTask.results (task ex_final)) ∧
  (lock ex_final = false →
   ScanTask.found_count (task ex_final) = length (ScanTask.results (task ex_final))) ∧
  (∀ l s', step strptime_ymd_hm ["A"; "B"] (ex_request ["A"; "B"]) l ex_final = Some s' →
           counters s' ≠ counters ex_final → lock ex_final = true ∧ lock s' = true).
Proof.
  apply (counters_consistent_when_lock_free strptime_ymd_hm ["A"; "B"]
           (ex_request ["A"; "B"]) "t" 0%float ex_trace_complete ex_final).
  vm_compute. reflexivity.
Defined.

Example complete_run :
  at_pc ex_final = PDone ∧
  ScanTask.status (task ex_final) = Status.completed ∧
  counters ex_final = (2, 1, [ex_item]).
Proof. split_and!; vm_compute; reflexivity. Qed.

(** C3 fails as stated: unit A is running when the flag is set and later
    returns one result, yet the task ends cancelled with nothing counted and
    no result kept. *)
Lemma in_flight_result_discarded_counterexample :
  exec strptime_ymd_hm ["A"; "B"] (ex_request ["A"; "B"]) ex_trace_running ex_init2
    = Some ex_running ∧
  futures ex_running !! 0 = Some (FRunning 0) ∧
  ScanTask.status (task ex_running) = Status.running ∧
  exec strptime_ymd_hm ["A"; "B"] (ex_request ["A"; "B"]) ex_trace_cancel ex_running
    = Some ex_cancelled_end ∧
  futures ex_cancelled_end !! 0 = Some (FDone 0 0 (Some [ex_item])) ∧
  at_pc ex_cancelled_end = PDone ∧
  ScanTask.status (task ex_cancelled_end) = Status.cancelled ∧
  counters ex_cancelled_end = (0, 0, []).
Proof. split_and!; vm_compute; reflexivity. Qed.

(** C3, amended.  Once the cancel flag is set: a unit a worker takes up
    afterwards returns at once without a result and leaves the task record
    alone; the driver counts at most the completion it is handling at that
    moment; and from the moment it waits in [as_completed] nothing is
    counted or appended any more, whatever completes, the driver ends with
    status cancelled, and it does end as soon as [as_completed] hands out a
    completion or has none left. *)
Theorem cancel_stops_recording
    (strptime : string → option Z) (stocks : list string) (request : ScanRequest.t)
    (task_id : string) (now : float) (tr : list label) (s : sys) :
  exec strptime stocks request tr (init_sys task_id stocks now) = Some s →
  ScanTask.cancelled (task s) = true →
  (∀ i s', step strptime stocks request (LStart i) s = Some s' →
           task s' = task s ∧ ∃ t, futures s' !! i = Some (FDone t t None)) ∧
  (∀ tr' s', exec strptime stocks request tr' s = Some s' →
             ScanTask.cancelled (task s') = true ∧
             ScanTask.processed_count (task s')
             ≤ ScanTask.processed_count (task s) + 1) ∧
  (at_pc s = PNext →
   (∀ tr' s', exec strptime stocks request tr' s = Some s' →
              counters s' = counters s ∧
              (at_pc s' = PDone → ScanTask.status (task s') = Status.cancelled)) ∧
   (∀ i t0 t1 r, futures s !! i = Some (FDone t0 t1 r) → i ∉ yielded s →
      ∃ s', exec strptime stocks request (LYield i :: replicate 5 LDriver) s = Some s' ∧
            at_pc s' = PDone ∧ ScanTask.status (task s') = Status.cancelled) ∧
   (length (yielded s) = length (futures s) →
      ∃ s', exec strptime stocks request (replicate 5 LDriver) s = Some s' ∧
            at_pc s' = PDone ∧ ScanTask.status (task s') = Status.cancelled)).
Proof.
  intros Hex Hc. pose proof (Inv_reachable _ _ _ _ _ _ _ Hex) as HI.
  split; [|split].
  - intros i s' Hstep. simpl in Hstep.
    destruct (futures s !! i) as [[]|] eqn:Hi; try done.
    destruct (busy_workers s <? MAX_WORKERS); [|done].
    rewrite Hc in Hstep. injection Hstep as <-. split; [done|].
    exists (clock s). simpl. apply list_lookup_insert_eq.
    by apply lookup_lt_Some in Hi.
  - intros tr' s' Hex'.
    destruct (in_hand_exec _ _ _ _ _ _ Hex' Hc) as [Hc' Hle]. split; [done|].
    assert (in_hand (at_pc s) ≤ 1) by (destruct (at_pc s); simpl; lia). lia.
  - intros Hpc.
    assert (winding_down s) as Hw by (split; [done | by rewrite Hpc]).
    split; [|split].
    + intros tr' s' Hex'.
      destruct (winding_down_exec _ _ _ _ _ _ Hw Hex') as [[_ Hw'] Heq].
      split; [done|]. intros Hd. by rewrite Hd in Hw'.
    + intros i t0 t1 r Hi Hy.
      destruct (break_after_yield strptime stocks request s i t0 t1 r HI Hc Hpc Hi Hy)
        as (s' & ? & ? & ? & _). eauto.
    + intros Hlen.
      destruct (finish_when_exhausted strptime stocks request s HI Hc Hpc Hlen)
        as (s' & ? & ? & ? & _). eauto.
Qed.

Lemma cancel_stops_recording_witness :
  (∀ i s', step strptime_ymd_hm ["A"; "B"] (ex_request ["A"; "B"]) (LStart i) ex_flagged
             = Some s' →
           task s' = task ex_flagged ∧ ∃ t, futures s' !! i = Some (FDone t t None)) ∧
  (∀ tr' s', exec strptime_ymd_hm ["A"; "B"] (ex_request ["A"; "B"]) tr' ex_flagged
               = Some s' →
             ScanTask.cancelled (task s') = true ∧
             ScanTask.processed_count (task s')
             ≤ ScanTask.processed_count (task ex_flagged) + 1) ∧
  (at_pc ex_flagged = PNext →
   (∀ tr' s', exec strptime_ymd_hm ["A"; "B"] (ex_request ["A"; "B"]) tr' ex_flagged
                = Some s' →
              counters s' = counters ex_flagged ∧
              (at_pc s' = PDone → ScanTask.status (task s') = Status.cancelled)) ∧
   (∀ i t0 t1 r, futures ex_flagged !! i = Some (FDone t0 t1 r) → i ∉ yielded ex_flagged →
      ∃ s', exec strptime_ymd_hm ["A"; "B"] (ex_request ["A"; "B"])
              (LYield i :: replicate 5 LDriver) ex_flagged = Some s' ∧
            at_pc s' = PDone ∧ ScanTask.status (task s') = Status.cancelled) ∧
   (length (yielded ex_flagged) = length (futures ex_flagged) →
      ∃ s', exec strptime_ymd_hm ["A"; "B"] (ex_request ["A"; "B"])
              (replicate 5 LDriver) ex_flagged = Some s' ∧
            at_pc s' = PDone ∧ ScanTask.status (task s') = Status.cancelled)).
Proof.
  apply (cancel_stops_recording strptime_ymd_hm ["A"; "B"] (ex_request ["A"; "B"])
           "t" 0%float (ex_trace_running ++ [LCancelSet]) ex_flagged).
  - vm_compute. reflexivity.
  - reflexivity.
Defined.

(** C5 fails as stated: [cancel_scan] tests the status before it takes the
    task lock.  A call passes the test while the only unit runs; the scan
    then completes; the call now sets the cancel flag of the completed task
    (and returns [True]).  The status stays completed. *)
Lemma cancel_sets_flag_on_completed_task_counterexample :
  exec strptime_ymd_hm ["A"] (ex_request ["A"]) ex_trace_late_cancel ex_init1
    = Some ex_completed_pending ∧
  at_pc ex_completed_pending = PDone ∧
  ScanTask.status (task ex_completed_pending) = Status.completed ∧
  ScanTask.cancelled (task ex_completed_pending) = false ∧
  cancel_calls ex_completed_pending = 1 ∧
  step strptime_ymd_hm ["A"] (ex_request ["A"]) LCancelSet ex_completed_pending
    = Some ex_completed_flagged ∧
  ScanTask.status (task ex_completed_flagged) = Status.completed ∧
  ScanTask.cancelled (task ex_completed_flagged) = true ∧
  task ex_completed_flagged ≠ task ex_completed_pending.
Proof. split_and!; try (vm_compute; reflexivity). vm_compute. discriminate. Qed.

(** C5, amended.  Once the status of a task is completed, cancelled or
    error, no step of the driver, of a worker or of a [cancel_scan] call
    changes the status, whatever the interleaving.  A [cancel_scan] call
    whose status test finds the task in such a status changes nothing and
    is refused.  A call that passed the test earlier may still set the
    flag: that step needs such a pending call and changes the cancel flag
    only. *)
Theorem terminal_status_is_final
    (strptime : string → option Z) (stocks : list string) (request : ScanRequest.t)
    (task_id : string) (now : float) (tr : list label) (s : sys) :
  exec strptime stocks request tr (init_sys task_id stocks now) = Some s →
  Status.is_terminal (ScanTask.status (task s)) = true →
  (∀ tr' s', exec strptime stocks request tr' s = Some s' →
             ScanTask.status (task s') = ScanTask.status (task s)) ∧
  step strptime stocks request LCancelCheck s = Some s ∧
  (∀ svc id, Service.tasks svc !! id = Some (task s) →
             cancel_scan id svc = (svc, false)) ∧
  (∀ s', step strptime stocks request LCancelSet s = Some s' →
         0 < cancel_calls s ∧
         task s' = ScanTask.set_cancelled true (task s) ∧
         ScanTask.status (task s') = ScanTask.status (task s)).
Proof.
  intros Hex Hterm. pose proof (Inv_reachable _ _ _ _ _ _ _ Hex) as HI.
  split_and!.
  - intros tr' s' Hex'. by eapply terminal_exec.
  - simpl. case_decide as Hr; [|done]. by rewrite Hr in Hterm.
  - intros svc id Hid. unfold cancel_scan. rewrite Hid.
    case_decide as Hr; [|done]. by rewrite Hr in Hterm.
  - intros s' Hstep. simpl in Hstep.
    destruct (cancel_calls s) as [|n]; [done|]. destruct (lock s); [done|].
    injection Hstep as <-. simpl. split; [lia | done].
Qed.

Lemma terminal_status_is_final_witness :
  (∀ tr' s', exec strptime_ymd_hm ["A"] (ex_request ["A"]) tr' ex_completed_pending
               = Some s' →
             ScanTask.status (task s') = ScanTask.status (task ex_completed_pending)) ∧
  step strptime_ymd_hm ["A"] (ex_request ["A"]) LCancelCheck ex_completed_pending
    = Some ex_completed_pending ∧
  (∀ svc id, Service.tasks svc !! id = Some (task ex_completed_pending) →
             cancel_scan id svc = (svc, false)) ∧
  (∀ s', step strptime_ymd_hm ["A"] (ex_request ["A"]) LCancelSet ex_completed_pending
           = Some s' →
         0 < cancel_calls ex_completed_pending ∧
         task s' = ScanTask.set_cancelled true (task ex_completed_pending) ∧
         ScanTask.status (task s') = ScanTask.status (task ex_completed_pending)).
Proof.
  apply (terminal_status_is_final strptime_ymd_hm ["A"] (ex_request ["A"])
           "t" 0%float ex_trace_late_cancel ex_completed_pending).
  - vm_compute. reflexivity.
  - reflexivity.
Defined.

(** *** The per-unit timeout *)

(** [future.result(timeout=...)] is only ever called on a future that is
    done: the driver never enters the inner [except] branch. *)
Lemma timeout_branch_unreachable
    (strptime : string → option Z) (stocks : list string) (request : ScanRequest.t)
    (task_id : string) (now : float) (tr : list label) (s : sys) :
  exec strptime stocks request tr (init_sys task_id stocks now) = Some s →
  except_pc (at_pc s) = false ∧
  (∀ i c0, at_pc s = PResult i c0 →
           ∃ t0 t1 r, futures s !! i = Some (FDone t0 t1 r)).
Proof.
  intros Hex. pose proof (Inv_reachable _ _ _ _ _ _ _ Hex) as HI.
  split; [apply HI|]. intros i c0 Hpc.
  apply (inv_done _ _ HI), (inv_handled _ _ HI). by rewrite Hpc.
Qed.

Lemma exec_ticks strptime stocks request n s :
  exec strptime stocks request (replicate n LTick) s = Some (with_clock (clock s + n) s).
Proof.
  revert s. induction n as [|n IH]; intros s; simpl.
  - destruct s. unfold with_clock. simpl. by rewrite Nat.add_0_r.
  - rewrite IH. unfold with_clock. simpl. do 2 f_equal. lia.
Qed.

(** C8 at the failing input.  A unit that answers after 31 ticks, past the
    timeout of 30, is recorded like any success, results included; a unit
    that has not answered after [n] ticks leaves the driver blocked in
    [as_completed], however large [n] is. *)
Theorem slow_unit_is_not_timed_out (n : nat) :
  (exec strptime_ymd_hm ["A"] (ex_request ["A"]) ex_trace_slow ex_init1 = Some ex_slow_end ∧
   futures ex_slow_end !! 0 = Some (FDone 0 31 (Some [ex_item])) ∧
   SINGLE_STOCK_TIMEOUT < 31 - 0 ∧
   at_pc ex_slow_end = PDone ∧
   ScanTask.status (task ex_slow_end) = Status.completed ∧
   counters ex_slow_end = (1, 1, [ex_item])) ∧
  (∃ s, exec strptime_ymd_hm ["A"] (ex_request ["A"]) (ex_trace_hung n) ex_init1 = Some s ∧
        futures s !! 0 = Some (FRunning 0) ∧
        clock s = n ∧
        at_pc s = PNext ∧
        step strptime_ymd_hm ["A"] (ex_request ["A"]) LDriver s = None ∧
        ∀ i, step strptime_ymd_hm ["A"] (ex_request ["A"]) (LYield i) s = None).
Proof.
  split.
  - split_and!; try (vm_compute; reflexivity); unfold SINGLE_STOCK_TIMEOUT; lia.
  - unfold ex_trace_hung. rewrite exec_app.
    change (exec strptime_ymd_hm ["A"] (ex_request ["A"]) [LDriver; LStart 0; LMark 0]
              ex_init1)
      with (Some (mkSys (ScanTask.set_current_stock (Some "A") (task ex_init1)) false
                    [FRunning 0] [] PNext 0 0)).
    simpl. rewrite exec_ticks.
    eexists. split; [reflexivity|]. simpl. split_and!; try reflexivity.
    intros [|i]; reflexivity.
Qed.

(** ** The claims about the filter output, the resolver and task creation *)

Lemma filter_visit_kept_store strptime bsp_types cutoff h a :
  (filter_visit strptime bsp_types cutoff h a).2 = true →
  (filter_visit strptime bsp_types cutoff h a).1
  = rewrite_type bsp_types (bsp_type_values (BSPoint.type (h a))) h a.
Proof.
  unfold filter_visit.
  destruct (negb (BSPoint.is_buy (h a))); [done|].
  destruct (negb (type_matched _ _)); [done|].
  by destruct (strptime _).
Qed.

(** C10.  The objects [filter_buy_points] returns are a subsequence of the
    objects it was given: same objects, same order, each position used at
    most once.  No object changes in any field but [type]; the tag of a
    returned object is one of the requested tags, namely the one the
    rewriting step computes from its original tag text. *)
Theorem filter_output_is_subsequence
    (strptime : string → option Z) (now days cutoff : Z) (h : heap)
    (bs_points : list nat) (bsp_types : list string) :
  cutoff_time now days = Some cutoff →
  ∃ h' out,
    filter_buy_points strptime now h bs_points bsp_types days = Some (h', out) ∧
    out `sublist_of` bs_points ∧
    (∀ a, same_but_type (h' a) (h a)) ∧
    (∀ a, a ∈ out → BSPoint.type (h' a) ∈ bsp_types) ∧
    (NoDup bs_points →
     NoDup out ∧
     ∀ a, a ∈ out →
          BSPoint.type (h' a)
          = BSPoint.type
              (rewrite_type bsp_types (bsp_type_values (BSPoint.type (h a))) h a a)).
Proof.
  intros Hcut. unfold filter_buy_points. rewrite Hcut. simpl.
  destruct (filter_loop strptime bsp_types cutoff h bs_points) as [h' out] eqn:Hloop.
  exists h', out. split; [done|].
  pose proof (filter_loop_sublist strptime bsp_types cutoff h bs_points) as Hsub.
  pose proof (filter_loop_fields strptime bsp_types cutoff h bs_points) as Hfld.
  rewrite Hloop in Hsub, Hfld. simpl in Hsub, Hfld.
  split_and!; try done.
  - intros a Ha.
    pose proof (filter_loop_out_requested strptime bsp_types cutoff h bs_points a) as Hr.
    rewrite Hloop in Hr. by apply Hr.
  - intros Hnd. split; [by eapply sublist_NoDup|].
    intros a Ha.
    assert (a ∈ bs_points) as Hin by by eapply elem_of_sublist.
    destruct (filter_loop_at strptime bsp_types cutoff h bs_points a Hnd Hin) as [Hh Hout].
    rewrite Hloop in Hh, Hout. simpl in Hh, Hout.
    rewrite Hh. apply Hout in Ha. by rewrite (filter_visit_kept_store _ _ _ _ _ Ha).
Qed.

Lemma filter_output_is_subsequence_witness :
  ∃ h' out,
    filter_buy_points strptime_ymd_hm ex_now (heap_of_list [ex_late; ex_packed; ex_edge])
      [0; 1; 2] ["3a"; "1"] 3 = Some (h', out) ∧
    out `sublist_of` [0; 1; 2] ∧
    (∀ a, same_but_type (h' a) (heap_of_list [ex_late; ex_packed; ex_edge] a)) ∧
    (∀ a, a ∈ out → BSPoint.type (h' a) ∈ ["3a"; "1"]) ∧
    (NoDup [0; 1; 2] →
     NoDup out ∧
     ∀ a, a ∈ out →
          BSPoint.type (h' a)
          = BSPoint.type
              (rewrite_type ["3a"; "1"]
                 (bsp_type_values
                    (BSPoint.type (heap_of_list [ex_late; ex_packed; ex_edge] a)))
                 (heap_of_list [ex_late; ex_packed; ex_edge]) a a)).
Proof.
  apply (filter_output_is_subsequence strptime_ymd_hm ex_now 3 63840657600000000
           (heap_of_list [ex_late; ex_packed; ex_edge]) [0; 1; 2] ["3a"; "1"]).
  reflexivity.
Defined.

Example subsequence_run :
  emitted_types (filter_buy_points strptime_ymd_hm ex_now
                   (heap_of_list [ex_late; ex_packed; ex_edge]) [0; 1; 2] ["3a"; "1"] 3)
  = Some ["3a"; "1"].
Proof. vm_compute. reflexivity. Qed.

(** With the same object at two positions the output holds it twice. *)
Example aliased_input_run :
  option_map snd (filter_buy_points strptime_ymd_hm ex_now (heap_of_list [ex_edge])
                    [0; 0] ["1"] 3) = Some [0; 0].
Proof. vm_compute. reflexivity. Qed.

(** C2 fails as stated: an empty custom list is not returned, the whole
    catalog is. *)
Lemma empty_custom_list_falls_back_counterexample :
  get_stock_list (Some ["sh.600000"; "sz.000001"]) "custom" None (Some [])
  = ["sh.600000"; "sz.000001"] ∧
  get_stock_list (Some ["sh.600000"; "sz.000001"]) "custom" None (Some []) ≠ [].
Proof. split; [reflexivity | discriminate]. Qed.

(** C2, amended.  With the custom selector a non-empty list of codes is
    returned as it was given; an empty or missing list gives the whole
    catalog, as the selector for all stocks does. *)
Theorem get_stock_list_custom
    (cat : catalog) (boards stock_codes : option (list string)) :
  get_stock_list cat "custom" boards stock_codes
  = match stock_codes with
    | Some (c :: codes) => c :: codes
    | _ => get_all_stocks cat
    end.
Proof.
  unfold get_stock_list. simpl.
  destruct stock_codes as [[|c codes]|]; reflexivity.
Qed.

(** C6.  When the resolved list of stocks is empty, [start_scan] raises
    [ValueError] and leaves the registry, the store and the list of started
    threads as they were; this is the case in particular when the catalog
    cannot be read and the request does not carry its own codes. *)
Theorem start_scan_rejects_empty_universe
    (env : Env.t) (request : ScanRequest.t) (svc : Service.t) :
  get_stock_list (Env.stocks_table env) (ScanRequest.stock_pool request)
    (ScanRequest.boards request) (ScanRequest.stock_codes request) = [] →
  ∃ svc' msg,
    start_scan env request svc = (svc', inl (ValueError msg)) ∧
    svc' = svc ∧
    Service.tasks svc' !! Env.uuid4 env = Service.tasks svc !! Env.uuid4 env ∧
    Service.scan_tasks svc' !! Env.uuid4 env = Service.scan_tasks svc !! Env.uuid4 env ∧
    Service.threads svc' = Service.threads svc.
Proof.
  intros Hempty. unfold start_scan. rewrite Hempty. by eexists _, _.
Qed.

Lemma start_scan_rejects_empty_universe_witness :
  ∃ svc' msg,
    start_scan ex_env_down ex_request_all ex_service = (svc', inl (ValueError msg)) ∧
    svc' = ex_service ∧
    Service.tasks svc' !! Env.uuid4 ex_env_down
      = Service.tasks ex_service !! Env.uuid4 ex_env_down ∧
    Service.scan_tasks svc' !! Env.uuid4 ex_env_down
      = Service.scan_tasks ex_service !! Env.uuid4 ex_env_down ∧
    Service.threads svc' = Service.threads ex_service.
Proof.
  apply (start_scan_rejects_empty_universe ex_env_down ex_request_all ex_service).
  reflexivity.
Defined.

(** An unreadable catalog resolves to no stocks unless the request is a
    custom one with codes of its own. *)
Lemma catalog_down_resolves_empty stock_pool boards stock_codes :
  (String.eqb stock_pool "custom" && truthy stock_codes) = false →
  get_stock_list None stock_pool boards stock_codes = [].
Proof.
  intros Hc. unfold get_stock_list. rewrite Hc.
  destruct (String.eqb stock_pool "boards" && truthy boards); [|done].
  unfold get_stocks_by_boards. simpl. by destruct (default [] boards).
Qed.

(** ** Elapsed time *)

Lemma start_time_step strptime stocks request l s s' :
  step strptime stocks request l s = Some s' →
  ScanTask.start_time (task s') = ScanTask.start_time (task s).
Proof.
  intros Hstep.
  destruct l; simpl in Hstep;
    try (unfold driver_step, acquire, release in Hstep);
    repeat match type of Hstep with
      | context [if ?c then _ else _] => destruct c eqn:?
      | context [match ?c with _ => _ end] => destruct c eqn:?
      end;
    simplify_eq; simpl in *; done.
Qed.

Lemma start_time_exec strptime stocks request tr s s' :
  exec strptime stocks request tr s = Some s' →
  ScanTask.start_time (task s') = ScanTask.start_time (task s).
Proof.
  revert s. induction tr as [|l tr IH]; intros s; simpl.
  - by intros [= <-].
  - destruct (step strptime stocks request l s) as [s1|] eqn:Hs; simpl; [|done].
    intros Hex. rewrite (IH _ Hex). by eapply start_time_step.
Qed.

(** C9 fails as stated: the task is completed, and two reads of its result,
    at clock readings 160 and 220, report 160 and 220 seconds. *)
Lemma elapsed_time_not_frozen_counterexample :
  exec strptime_ymd_hm ["A"; "B"] (ex_request ["A"; "B"]) ex_trace_complete ex_init2
    = Some ex_final ∧
  ScanTask.status (task ex_final) = Status.completed ∧
  ScanResultResponse.elapsed_time (ScanTask.to_result (task ex_final) 160%float)
    = 160%float ∧
  ScanResultResponse.elapsed_time (ScanTask.to_result (task ex_final) 220%float)
    = 220%float ∧
  ScanResultResponse.elapsed_time (ScanTask.to_result (task ex_final) 160%float)
  ≠ ScanResultResponse.elapsed_time (ScanTask.to_result (task ex_final) 220%float).
Proof.
  split_and!; try (vm_compute; reflexivity).
  intros H. apply (f_equal (fun x => PrimFloat.ltb x 200%float)) in H.
  vm_compute in H. discriminate.
Qed.

(** C9, amended.  In every state the task goes through, running or
    terminal, the elapsed time a read reports is the clock reading of that
    read minus the time the task was created; nothing is frozen when the
    task ends. *)
Theorem elapsed_time_is_now_minus_start
    (strptime : string → option Z) (stocks : list string) (request : ScanRequest.t)
    (task_id : string) (t0 : float) (tr : list label) (s : sys) (now : float) :
  exec strptime stocks request tr (init_sys task_id stocks t0) = Some s →
  ScanResultResponse.elapsed_time (ScanTask.to_result (task s) now)
  = PrimFloat.sub now t0.
Proof.
  intros Hex. simpl. unfold ScanTask.elapsed_time.
  by rewrite (start_time_exec _ _ _ _ _ _ Hex).
Qed.

Lemma elapsed_time_is_now_minus_start_witness :
  ScanResultResponse.elapsed_time (ScanTask.to_result (task ex_final) 220%float)
  = PrimFloat.sub 220%float 0%float.
Proof.
  apply (elapsed_time_is_now_minus_start strptime_ymd_hm ["A"; "B"]
           (ex_request ["A"; "B"]) "t" 0%float ex_trace_complete ex_final 220%float).
  vm_compute. reflexivity.
Defined.

(** * Further properties of the service *)

(** ** Tag extraction *)

Lemma findall_values_clean acc s v :
  match acc with Some g => no_quote g = true | None => True end →
  v ∈ findall_quoted_from acc s → v ≠ EmptyString ∧ no_quote v = true.
Proof.
  revert acc. induction s as [|c s IH]; intros acc Hacc; simpl.
  - by intros ?%elem_of_nil.
  - destruct (Ascii.eqb c "'") eqn:Hc.
    + destruct acc as [[|c' g]|].
      * by apply IH.
      * intros [Heq|Hin]%elem_of_cons;
          [subst v; split; [done | exact Hacc] | by apply (IH None)].
      * by apply IH.
    + destruct acc as [g|]; [|by apply IH].
      apply IH. rewrite no_quote_app. simpl. by rewrite Hacc, Hc.
Qed.

(** X1.  The tag values read from a type text are never an empty list (so
    [bsp_type_values[0]] always exists); a text without a single quote is
    its own and only value; and the values read from between quotes are
    non-empty and hold no quote themselves. *)
Theorem bsp_type_values_shape (raw_type : string) :
  bsp_type_values raw_type ≠ [] ∧
  (no_quote raw_type = true → bsp_type_values raw_type = [raw_type]) ∧
  (findall_quoted raw_type ≠ [] →
   ∀ v, v ∈ bsp_type_values raw_type → v ≠ EmptyString ∧ no_quote v = true).
Proof.
  unfold bsp_type_values. split_and!.
  - by destruct (findall_quoted raw_type).
  - intros Hq. unfold findall_quoted. by rewrite findall_no_quote.
  - intros Hne v Hv. destruct (findall_quoted raw_type) eqn:E; [done|].
    rewrite <- E in Hv. by apply (findall_values_clean None raw_type v).
Qed.

(** X2.  Extraction undoes packing: from a text that holds the tags
    [t1 ... tn], each between single quotes and separated by any quote-free
    text, exactly [t1 ... tn] are read, in that order. *)
Theorem bsp_type_values_of_packed (segs : list (string * string)) (tail : string) :
  segs ≠ [] →
  Forall (fun st => no_quote st.1 = true ∧ no_quote st.2 = true ∧ st.2 ≠ EmptyString) segs →
  no_quote tail = true →
  bsp_type_values (pack_tags segs tail) = map snd segs.
Proof.
  intros Hne Hsegs Htail. unfold bsp_type_values, findall_quoted.
  rewrite findall_pack by done. by destruct segs.
Qed.

Lemma bsp_type_values_of_packed_witness :
  bsp_type_values (pack_tags [("[<BSP_TYPE.T2: ", "2"); (">, <BSP_TYPE.T3A: ", "3a")] ">]")
  = map snd [("[<BSP_TYPE.T2: ", "2"); (">, <BSP_TYPE.T3A: ", "3a")].
Proof.
  apply (bsp_type_values_of_packed
           [("[<BSP_TYPE.T2: ", "2"); (">, <BSP_TYPE.T3A: ", "3a")] ">]").
  - discriminate.
  - repeat constructor; discriminate.
  - reflexivity.
Defined.

Example packed_text_is_the_repr :
  pack_tags [("[<BSP_TYPE.T2: ", "2"); (">, <BSP_TYPE.T3A: ", "3a")] ">]"
  = BSPoint.type ex_packed.
Proof. reflexivity. Qed.

(** ** The filter on values *)

Section PureFilter.
Variable strptime : string -> option Z.
Variable bsp_types : list string.
Variable cutoff : Z.

Abbreviation visit := (filter_visit strptime bsp_types cutoff).
Abbreviation loop := (filter_loop strptime bsp_types cutoff).
Abbreviation kept := (point_kept strptime bsp_types cutoff).

Lemma filter_visit_is_point_kept h a : (visit h a).2 = kept (h a).
Proof.
  unfold filter_visit, point_kept.
  destruct (BSPoint.is_buy (h a)); simpl; [|done].
  destruct (type_matched _ _); simpl; [|done].
  destruct (rewrite_type_fields bsp_types (bsp_type_values (BSPoint.type (h a))) h a a)
    as [-> _].
  by destruct (strptime _).
Qed.

Lemma set_type_same p : BSPoint.set_type (BSPoint.type p) p = p.
Proof. by destruct p. Qed.

Lemma rewrite_type_canonical h a :
  rewrite_type bsp_types (bsp_type_values (BSPoint.type (h a))) h a a
  = BSPoint.set_type (canonical_type bsp_types (BSPoint.type (h a))) (h a).
Proof.
  unfold rewrite_type, canonical_type.
  destruct (1 <? length _).
  - destruct (first_requested _ _); simpl;
      [apply heap_set_type_same | by rewrite set_type_same].
  - destruct (bsp_type_values _); [by rewrite set_type_same | apply heap_set_type_same].
Qed.

Lemma filter_visit_kept_object h a :
  (visit h a).2 = true →
  (visit h a).1 a = BSPoint.set_type (canonical_type bsp_types (BSPoint.type (h a))) (h a).
Proof.
  intros Hk. rewrite (filter_visit_kept_store _ _ _ _ _ Hk).
  apply rewrite_type_canonical.
Qed.

(** Passing the test after a visit means passing it before. *)
Lemma point_kept_before_visit h b a :
  kept ((visit h b).1 a) = true → kept (h a) = true.
Proof.
  destruct (decide (a = b)) as [->|Hne]; [|by rewrite filter_visit_other].
  unfold filter_visit.
  destruct (BSPoint.is_buy (h b)) eqn:Hbuy; simpl; [|done].
  destruct (type_matched _ _) eqn:Hm; simpl; [|done].
  assert (∀ g : heap, same_but_type (g b) (h b) → kept (g b) = true → kept (h b) = true)
    as Hback.
  { intros g (Ht & _ & _ & _). unfold point_kept. rewrite Ht, Hbuy, Hm. simpl.
    by intros (_ & ?)%andb_true_iff. }
  destruct (strptime _); simpl; apply Hback, rewrite_type_fields.
Qed.

Lemma point_kept_before_loop h refs a :
  kept ((loop h refs).1 a) = true → kept (h a) = true.
Proof.
  revert h. induction refs as [|b rest IH]; intros h; [done|].
  rewrite filter_loop_cons. simpl. intros Hk.
  by eapply point_kept_before_visit, IH.
Qed.

Lemma filter_loop_out_kept h refs a :
  a ∈ (loop h refs).2 → a ∈ refs ∧ kept (h a) = true.
Proof.
  revert h. induction refs as [|b rest IH]; intros h.
  - simpl. by intros ?%elem_of_nil.
  - rewrite filter_loop_cons. simpl.
    assert (a ∈ (loop (visit h b).1 rest).2 → a ∈ b :: rest ∧ kept (h a) = true) as Htail.
    { intros [Hin Hk]%IH. split; [by right | by eapply point_kept_before_visit]. }
    destruct ((visit h b).2) eqn:Hkeep; [|done].
    intros [->|Hin]%elem_of_cons; [|by apply Htail].
    split; [by left | by rewrite <- filter_visit_is_point_kept].
Qed.

(** Without aliasing the loop is a filter over the original objects. *)
Lemma filter_loop_is_filter h refs :
  NoDup refs → (loop h refs).2 = List.filter (fun a => kept (h a)) refs.
Proof.
  revert h. induction refs as [|b rest IH]; intros h Hnd; [done|].
  apply NoDup_cons in Hnd as [Hb Hnd].
  rewrite filter_loop_cons. simpl. rewrite (IH _ Hnd).
  rewrite <- filter_visit_is_point_kept.
  assert (List.filter (fun a => kept ((visit h b).1 a)) rest
          = List.filter (fun a => kept (h a)) rest) as ->.
  { apply filter_ext_in. intros a Ha%list_elem_of_In.
    rewrite filter_visit_other; [done|]. by intros ->. }
  done.
Qed.
End PureFilter.

(** X3.  Whatever the input list, aliased or not, every object
    [filter_buy_points] returns stood in the input and passes the test on
    the state it had before the call: it is a buy point, one of its packed
    tags is requested, and its timestamp parses and is not before the
    cutoff. *)
Theorem filter_emits_only_kept_points
    (strptime : string → option Z) (now days cutoff : Z) (h : heap)
    (bs_points : list nat) (bsp_types : list string) :
  cutoff_time now days = Some cutoff →
  ∃ h' out,
    filter_buy_points strptime now h bs_points bsp_types days = Some (h', out) ∧
    ∀ a, a ∈ out →
         a ∈ bs_points ∧
         BSPoint.is_buy (h a) = true ∧
         (∃ v, v ∈ bsp_type_values (BSPoint.type (h a)) ∧ v ∈ bsp_types) ∧
         ∃ ts, strptime (BSPoint.time (h a)) = Some ts ∧
               (now - days * US_PER_DAY ≤ ts)%Z.
Proof.
  intros Hcut. pose proof (cutoff_time_Some _ _ _ Hcut) as Hc.
  unfold filter_buy_points. rewrite Hcut. simpl.
  destruct (filter_loop strptime bsp_types cutoff h bs_points) as [h' out] eqn:Hloop.
  exists h', out. split; [done|]. intros a Ha.
  destruct (filter_loop_out_kept strptime bsp_types cutoff h bs_points a) as [Hin Hk];
    [by rewrite Hloop|].
  split; [done|]. unfold point_kept in Hk.
  apply andb_true_iff in Hk as [[Hbuy Hm]%andb_true_iff Ht].
  split; [done|]. split; [by apply type_matched_true|].
  destruct (strptime (BSPoint.time (h a))) as [ts|]; [|done].
  exists ts. split; [done|]. apply Z.leb_le in Ht. lia.
Qed.

Lemma filter_emits_only_kept_points_witness :
  ∃ h' out,
    filter_buy_points strptime_ymd_hm ex_now (heap_of_list [ex_edge]) [0; 0] ["1"] 3
      = Some (h', out) ∧
    ∀ a, a ∈ out →
         a ∈ [0; 0] ∧
         BSPoint.is_buy (heap_of_list [ex_edge] a) = true ∧
         (∃ v, v ∈ bsp_type_values (BSPoint.type (heap_of_list [ex_edge] a)) ∧ v ∈ ["1"]) ∧
         ∃ ts, strptime_ymd_hm (BSPoint.time (heap_of_list [ex_edge] a)) = Some ts ∧
               (ex_now - 3 * US_PER_DAY ≤ ts)%Z.
Proof.
  apply (filter_emits_only_kept_points strptime_ymd_hm ex_now 3 63840657600000000
           (heap_of_list [ex_edge]) [0; 0] ["1"]).
  reflexivity.
Defined.

Lemma filter_is_pure_filter_aux
    (strptime : string → option Z) (now days cutoff : Z) (h : heap)
    (bs_points : list nat) (bsp_types : list string) :
  cutoff_time now days = Some cutoff →
  NoDup bs_points →
  ∃ h',
    filter_buy_points strptime now h bs_points bsp_types days
    = Some (h', List.filter (fun a => point_kept strptime bsp_types cutoff (h a)) bs_points) ∧
    ∀ a, a ∈ bs_points → point_kept strptime bsp_types cutoff (h a) = true →
         h' a = BSPoint.set_type (canonical_type bsp_types (BSPoint.type (h a))) (h a).
Proof.
  intros Hcut Hnd. unfold filter_buy_points. rewrite Hcut. simpl.
  destruct (filter_loop strptime bsp_types cutoff h bs_points) as [h' out] eqn:Hloop.
  exists h'. split.
  - pose proof (filter_loop_is_filter strptime bsp_types cutoff h bs_points Hnd) as Hf.
    rewrite Hloop in Hf. simpl in Hf. by rewrite Hf.
  - intros a Ha Hk.
    destruct (filter_loop_at strptime bsp_types cutoff h bs_points a Hnd Ha) as [Hh _].
    rewrite Hloop in Hh. simpl in Hh. rewrite Hh.
    apply filter_visit_kept_object. by rewrite filter_visit_is_point_kept.
Qed.

(** X4.  On a list without aliasing [filter_buy_points] is a plain filter:
    it returns, in input order, exactly the objects that pass the test, and
    each returned object is its old self with the tag replaced by the
    canonical one. *)
Theorem filter_is_pure_filter
    (strptime : string → option Z) (now days cutoff : Z) (h : heap)
    (bs_points : list nat) (bsp_types : list string) :
  cutoff_time now days = Some cutoff →
  NoDup bs_points →
  ∃ h',
    filter_buy_points strptime now h bs_points bsp_types days
    = Some (h', List.filter (fun a => point_kept strptime bsp_types cutoff (h a)) bs_points) ∧
    ∀ a, a ∈ bs_points → point_kept strptime bsp_types cutoff (h a) = true →
         h' a = BSPoint.set_type (canonical_type bsp_types (BSPoint.type (h a))) (h a).
Proof. apply filter_is_pure_filter_aux. Qed.

Lemma filter_is_pure_filter_witness :
  ∃ h',
    filter_buy_points strptime_ymd_hm ex_now (heap_of_list [ex_late; ex_packed; ex_edge])
      [0; 1; 2] ["3a"; "1"] 3
    = Some (h', List.filter
                  (fun a => point_kept strptime_ymd_hm ["3a"; "1"] 63840657600000000
                              (heap_of_list [ex_late; ex_packed; ex_edge] a)) [0; 1; 2]) ∧
    ∀ a, a ∈ [0; 1; 2] →
         point_kept strptime_ymd_hm ["3a"; "1"] 63840657600000000
           (heap_of_list [ex_late; ex_packed; ex_edge] a) = true →
         h' a = BSPoint.set_type
                  (canonical_type ["3a"; "1"]
                     (BSPoint.type (heap_of_list [ex_late; ex_packed; ex_edge] a)))
                  (heap_of_list [ex_late; ex_packed; ex_edge] a).
Proof.
  apply (filter_is_pure_filter strptime_ymd_hm ex_now 3 63840657600000000
           (heap_of_list [ex_late; ex_packed; ex_edge]) [0; 1; 2] ["3a"; "1"]).
  - reflexivity.
  - apply (bool_decide_unpack (NoDup [0; 1; 2])). vm_compute. exact I.
Defined.

(** ** One unit of work on values *)

Lemma filter_map_indices {A B : Type} (F : A → B) (G : A → bool) (d : A)
    (pre pts : list A) :
  map (fun a => F (nth a (pre ++ pts) d))
    (List.filter (fun a => G (nth a (pre ++ pts) d)) (seq (length pre) (length pts)))
  = map F (List.filter G pts).
Proof.
  revert pre. induction pts as [|p pts IH]; intros pre; [done|].
  simpl. rewrite nth_middle.
  specialize (IH (pre ++ [p])). rewrite <- app_assoc, length_app in IH. simpl in IH.
  rewrite Nat.add_1_r in IH.
  destruct (G p); simpl; [rewrite nth_middle|]; by rewrite IH.
Qed.

Lemma scan_body_pure
    (strptime : string → option Z) (engine : option ChanResponse.t) (now : Z)
    (code : string) (request : ScanRequest.t) :
  scan_body strptime engine now code request
  = match engine, cutoff_time now (ScanRequest.time_window_days request) with
    | Some result, Some cutoff =>
        match List.filter (point_kept strptime (ScanRequest.bsp_types request) cutoff)
                (ChanResponse.bs_points result) with
        | [] => None
        | kept_points =>
            Some (map (item_of_point code (ChanResponse.name result)
                         (ScanRequest.kline_type request) (ScanRequest.bsp_types request))
                    kept_points)
        end
    | _, _ => None
    end.
Proof.
  unfold scan_body. destruct engine as [result|]; [|done].
  destruct (cutoff_time now (ScanRequest.time_window_days request)) as [cutoff|] eqn:Hcut;
    [|unfold filter_buy_points; by rewrite Hcut].
  set (pts := ChanResponse.bs_points result).
  set (types := ScanRequest.bsp_types request).
  destruct (filter_is_pure_filter_aux strptime now _ cutoff (heap_of_list pts)
              (seq 0 (length pts)) types Hcut (NoDup_seq 0 (length pts)))
    as (h' & -> & Hh').
  set (F := item_of_point code (ChanResponse.name result)
              (ScanRequest.kline_type request) types).
  assert (map (fun a => result_item code (ChanResponse.name result)
                          (ScanRequest.kline_type request) (h' a))
            (List.filter (fun a => point_kept strptime types cutoff (heap_of_list pts a))
               (seq 0 (length pts)))
          = map F (List.filter (point_kept strptime types cutoff) pts)) as Hmap.
  { rewrite <- (filter_map_indices F (point_kept strptime types cutoff)
                  (BSPoint.mk EmptyString EmptyString 0%float 0 false) [] pts).
    apply map_ext_in. intros a [Ha Hk]%filter_In.
    rewrite Hh'; [done | by apply list_elem_of_In | done]. }
  destruct (List.filter (fun a => point_kept strptime types cutoff (heap_of_list pts a))
              (seq 0 (length pts))) as [|a0 l0] eqn:Hf.
  - simpl in Hmap. symmetry in Hmap. apply map_eq_nil in Hmap. by rewrite Hmap.
  - rewrite Hmap. destruct (List.filter (point_kept strptime types cutoff) pts); done.
Qed.

(** X5.  A unit of work computes, on values, a filter followed by a map:
    it fails when the engine fails or the cutoff overflows, and otherwise
    returns the result rows of exactly the engine's decision points that
    pass the test, in the engine's order, each with its canonical tag, or
    [None] when there is none.  It never returns an empty list. *)
Theorem scan_body_is_filter_map
    (strptime : string → option Z) (engine : option ChanResponse.t) (now : Z)
    (code : string) (request : ScanRequest.t) :
  scan_body strptime engine now code request
  = match engine, cutoff_time now (ScanRequest.time_window_days request) with
    | Some result, Some cutoff =>
        match List.filter (point_kept strptime (ScanRequest.bsp_types request) cutoff)
                (ChanResponse.bs_points result) with
        | [] => None
        | kept_points =>
            Some (map (item_of_point code (ChanResponse.name result)
                         (ScanRequest.kline_type request) (ScanRequest.bsp_types request))
                    kept_points)
        end
    | _, _ => None
    end.
Proof. apply scan_body_pure. Qed.

Example scan_body_run :
  scan_body strptime_ymd_hm (Some (ChanResponse.mk (Some "Alpha") [ex_late; ex_packed; ex_edge]))
    ex_now "A" (ScanRequest.mk "custom" None (Some ["A"]) "day" ["3a"; "1"] 3 500)
  = Some [ScanResultItem.mk "A" (Some "Alpha") "3a" "2024/01/14 10:30" 12.5%float true "day";
          ScanResultItem.mk "A" (Some "Alpha") "1" "2024/01/12 12:00" 9%float true "day"].
Proof. vm_compute. reflexivity. Qed.

(** X6.  A window that reaches back before 0001-01-01 (or is longer than
    999999999 days) makes the cutoff computation overflow: the filter
    raises, and every unit of the scan returns no result, whatever the
    engine answers. *)
Theorem oversized_window_finds_nothing
    (strptime : string → option Z) (cancelled : bool) (engine : option ChanResponse.t)
    (now : Z) (code : string) (request : ScanRequest.t) (h : heap) (bs_points : list nat) :
  (now - ScanRequest.time_window_days request * US_PER_DAY < 0
   ∨ MAX_DELTA_DAYS < Z.abs (ScanRequest.time_window_days request))%Z →
  filter_buy_points strptime now h bs_points (ScanRequest.bsp_types request)
    (ScanRequest.time_window_days request) = None ∧
  scan_single_stock strptime cancelled engine now code request = None.
Proof.
  intros Hover.
  assert (cutoff_time now (ScanRequest.time_window_days request) = None) as Hcut.
  { unfold cutoff_time, timedelta_days, datetime_sub.
    destruct (Z.leb_spec (Z.abs (ScanRequest.time_window_days request)) MAX_DELTA_DAYS);
      simpl; [|done].
    destruct Hover as [Hneg|Hbig]; [|lia].
    destruct (Z.leb_spec 0 (now - ScanRequest.time_window_days request * US_PER_DAY));
      [lia | done]. }
  split.
  - unfold filter_buy_points. by rewrite Hcut.
  - unfold scan_single_stock. destruct cancelled; [done|].
    rewrite scan_body_pure, Hcut. by destruct engine.
Qed.

Lemma oversized_window_finds_nothing_witness :
  filter_buy_points strptime_ymd_hm ex_now (heap_of_list [ex_hit]) [0]
    (ScanRequest.bsp_types ex_request_long_window)
    (ScanRequest.time_window_days ex_request_long_window) = None ∧
  scan_single_stock strptime_ymd_hm false ex_engine_A ex_now "A" ex_request_long_window
  = None.
Proof.
  apply (oversized_window_finds_nothing strptime_ymd_hm false ex_engine_A ex_now "A"
           ex_request_long_window (heap_of_list [ex_hit]) [0]).
  left. vm_compute. reflexivity.
Defined.

(** ** Universe resolver *)

Lemma list_filter_sublist {A} (f : A → bool) (l : list A) :
  List.filter f l `sublist_of` l.
Proof.
  induction l as [|x l IH]; simpl; [constructor|].
  destruct (f x); by constructor.
Qed.

(** X7.  Selecting by boards keeps the catalog order and takes each code
    at most once however many of the requested boards it matches: a code is
    returned exactly when it is in the catalog and the pattern of one of the
    requested boards accepts it.  Board names without a pattern select
    nothing, and an empty board list selects the whole catalog. *)
Theorem get_stocks_by_boards_selects (cat : catalog) (boards : list string) :
  get_stocks_by_boards cat boards `sublist_of` get_all_stocks cat ∧
  (NoDup (get_all_stocks cat) → NoDup (get_stocks_by_boards cat boards)) ∧
  (boards = [] → get_stocks_by_boards cat boards = get_all_stocks cat) ∧
  (boards ≠ [] →
   ∀ code, code ∈ get_stocks_by_boards cat boards ↔
           code ∈ get_all_stocks cat ∧
           ∃ board pattern, board ∈ boards ∧ BOARD_PATTERNS board = Some pattern ∧
                            pattern code = true) ∧
  (boards ≠ [] → (∀ board, board ∈ boards → BOARD_PATTERNS board = None) →
   get_stocks_by_boards cat boards = []).
Proof.
  assert (get_stocks_by_boards cat boards `sublist_of` get_all_stocks cat) as Hsub.
  { unfold get_stocks_by_boards. destruct boards; [done | apply list_filter_sublist]. }
  assert (boards ≠ [] →
          ∀ code, code ∈ get_stocks_by_boards cat boards ↔
                  code ∈ get_all_stocks cat ∧
                  ∃ board pattern, board ∈ boards ∧ BOARD_PATTERNS board = Some pattern ∧
                                   pattern code = true) as Hiff.
  { intros Hne code. unfold get_stocks_by_boards.
    destruct boards as [|b0 bs] eqn:Hb; [done|]. rewrite <- Hb. clear Hb Hne.
    rewrite list_elem_of_In, filter_In, existsb_exists, <- list_elem_of_In.
    split.
    - intros [Hin (board & Hboard & Hp)]. split; [done|].
      destruct (BOARD_PATTERNS board) as [pattern|] eqn:E; [|done].
      exists board, pattern. by rewrite list_elem_of_In.
    - intros [Hin (board & pattern & Hboard & E & Hp)]. split; [done|].
      exists board. rewrite <- list_elem_of_In. by rewrite E. }
  split_and!; try done.
  - intros Hnd. by eapply sublist_NoDup.
  - by intros ->.
  - intros Hne Hnone. specialize (Hiff Hne).
    destruct (get_stocks_by_boards cat boards) as [|code l]; [done|].
    destruct (proj1 (Hiff code)) as (_ & board & pattern & Hb & Hp & _); [by left|].
    by rewrite (Hnone board Hb) in Hp.
Qed.

Example etf_and_kcb_selection :
  get_stocks_by_boards
    (Some ["bj.430047"; "sh.510300"; "sh.600000"; "sh.688001"; "sz.159915"; "sz.300750"])
    ["etf"; "kcb"; "etf"; "nope"]
  = ["sh.510300"; "sh.688001"; "sz.159915"].
Proof. vm_compute. reflexivity. Qed.

(** ** Task creation and cancellation on the registry *)

(** X8.  When some stocks are resolved and the store accepts the insert,
    [start_scan] returns the fresh id, registers under it a running task
    with zeroed counters whose [total_count] is the number of resolved
    stocks, writes the matching row, starts one thread on exactly those
    stocks, and leaves every other task and row alone.  When the store
    refuses the insert, the error goes to the caller and nothing is
    registered or started. *)
Theorem start_scan_registers_task
    (env : Env.t) (request : ScanRequest.t) (svc : Service.t) (stocks : list string) :
  get_stock_list (Env.stocks_table env) (ScanRequest.stock_pool request)
    (ScanRequest.boards request) (ScanRequest.stock_codes request) = stocks →
  stocks ≠ [] →
  (Env.store_up env = false → start_scan env request svc = (svc, inl StoreError)) ∧
  (Env.store_up env = true →
   ∃ svc',
     start_scan env request svc = (svc', inr (Env.uuid4 env)) ∧
     Service.tasks svc' !! Env.uuid4 env
       = Some (ScanTask.mk (Env.uuid4 env) Status.running (length stocks) 0 0 None []
                 None (Env.time_time env) false) ∧
     Service.scan_tasks svc' !! Env.uuid4 env
       = Some (TaskRow.mk Status.running request (length stocks) 0 0) ∧
     Service.threads svc' = Service.threads svc ++ [(Env.uuid4 env, stocks, request)] ∧
     ∀ id, id ≠ Env.uuid4 env →
           Service.tasks svc' !! id = Service.tasks svc !! id ∧
           Service.scan_tasks svc' !! id = Service.scan_tasks svc !! id).
Proof.
  intros Hstocks Hne. unfold start_scan. rewrite Hstocks.
  destruct stocks as [|c stocks']; [done|].
  split; intros ->; [done|].
  eexists. split; [reflexivity|]. simpl. split_and!.
  - by rewrite lookup_insert_eq.
  - by rewrite lookup_insert_eq.
  - done.
  - intros id Hid. by rewrite !lookup_insert_ne.
Qed.

Lemma start_scan_registers_task_witness :
  (Env.store_up ex_env_up = false →
   start_scan ex_env_up ex_request_all ex_service = (ex_service, inl StoreError)) ∧
  (Env.store_up ex_env_up = true →
   ∃ svc',
     start_scan ex_env_up ex_request_all ex_service = (svc', inr (Env.uuid4 ex_env_up)) ∧
     Service.tasks svc' !! Env.uuid4 ex_env_up
       = Some (ScanTask.mk (Env.uuid4 ex_env_up) Status.running
                 (length ["sh.600000"; "sz.000001"]) 0 0 None []
                 None (Env.time_time ex_env_up) false) ∧
     Service.scan_tasks svc' !! Env.uuid4 ex_env_up
       = Some (TaskRow.mk Status.running ex_request_all
                 (length ["sh.600000"; "sz.000001"]) 0 0) ∧
     Service.threads svc'
       = Service.threads ex_service
         ++ [(Env.uuid4 ex_env_up, ["sh.600000"; "sz.000001"], ex_request_all)] ∧
     ∀ id, id ≠ Env.uuid4 ex_env_up →
           Service.tasks svc' !! id = Service.tasks ex_service !! id ∧
           Service.scan_tasks svc' !! id = Service.scan_tasks ex_service !! id).
Proof.
  apply (start_scan_registers_task ex_env_up ex_request_all ex_service
           ["sh.600000"; "sz.000001"]).
  - reflexivity.
  - discriminate.
Defined.

(** X9.  [cancel_scan] accepts exactly when the id names a registered task
    whose status is running.  A refused call changes nothing; an accepted
    call sets the cancel flag of that task and touches nothing else, neither
    its status or counters nor any other task, the store or the threads.  A
    second call finds the same state and gives the same answer. *)
Theorem cancel_scan_sets_only_the_flag (task_id : string) (svc : Service.t) :
  ((cancel_scan task_id svc).2 = true ↔
   ∃ task, Service.tasks svc !! task_id = Some task ∧
           ScanTask.status task = Status.running) ∧
  ((cancel_scan task_id svc).2 = false → (cancel_scan task_id svc).1 = svc) ∧
  ((cancel_scan task_id svc).2 = true →
   Service.tasks (cancel_scan task_id svc).1 !! task_id
   = ScanTask.set_cancelled true <$> Service.tasks svc !! task_id) ∧
  (∀ id, id ≠ task_id →
         Service.tasks (cancel_scan task_id svc).1 !! id = Service.tasks svc !! id) ∧
  Service.scan_tasks (cancel_scan task_id svc).1 = Service.scan_tasks svc ∧
  Service.threads (cancel_scan task_id svc).1 = Service.threads svc ∧
  cancel_scan task_id (cancel_scan task_id svc).1 = cancel_scan task_id svc.
Proof.
  unfold cancel_scan.
  destruct (Service.tasks svc !! task_id) as [task|] eqn:Hl.
  - case_decide as Hr; simpl.
    + split_and!; try done.
      * split; [eauto | done].
      * by rewrite lookup_insert_eq.
      * intros id Hid. by rewrite lookup_insert_ne.
      * rewrite lookup_insert_eq. simpl. rewrite decide_True by done.
        by rewrite insert_insert_eq.
    + split_and!; try done.
      * split; [done|]. intros (task' & [= <-] & ?). done.
      * rewrite Hl. by rewrite decide_False.
  - simpl. split_and!; try done.
    + split; [done|]. by intros (task' & ? & _).
    + by rewrite Hl.
Qed.

Lemma api_cancel_refusal (task_id : string) (svc : Service.t) :
  (api_cancel_scan task_id svc).2 = None ↔
  ¬ ∃ task, Service.tasks svc !! task_id = Some task ∧
            ScanTask.status task = Status.running.
Proof.
  unfold api_cancel_scan, cancel_scan.
  destruct (Service.tasks svc !! task_id) as [task|].
  - case_decide as Hr; simpl.
    + split; [done|]. intros Hn. destruct Hn. eauto.
    + split; [|done]. intros _ (task' & [= <-] & ?). done.
  - simpl. split; [|done]. by intros _ (task' & ? & _).
Qed.

(** X10.  The endpoints answer by the outcome of the service call: starting
    a scan gives status code 400 exactly when no stock is resolved and 500
    exactly when stocks are resolved but the store refuses the insert, in
    both cases with the service unchanged; otherwise the response carries
    the fresh id, the status text started and, as [total_stocks], the
    number of resolved stocks.  Cancelling gives 400 exactly when the task
    is unknown or not running. *)
Theorem endpoints_report_outcome
    (env : Env.t) (request : ScanRequest.t) (svc : Service.t) (task_id : string) :
  let stocks :=
    get_stock_list (Env.stocks_table env) (ScanRequest.stock_pool request)
      (ScanRequest.boards request) (ScanRequest.stock_codes request) in
  (stocks = [] → api_start_scan env request svc = (svc, inl 400)) ∧
  (stocks ≠ [] → Env.store_up env = false →
   api_start_scan env request svc = (svc, inl 500)) ∧
  (stocks ≠ [] → Env.store_up env = true →
   (api_start_scan env request svc).2
   = inr (ScanTaskResponse.mk (Env.uuid4 env) "started" (length stocks))) ∧
  ((api_cancel_scan task_id svc).2 = None ↔
   ¬ ∃ task, Service.tasks svc !! task_id = Some task ∧
             ScanTask.status task = Status.running).
Proof.
  simpl. unfold api_start_scan, start_scan, get_task.
  destruct (get_stock_list _ _ _ _) as [|c stocks'] eqn:Hs.
  - split_and!; try done. apply api_cancel_refusal.
  - split_and!; try done.
    + by intros _ ->.
    + intros _ ->. simpl. by rewrite lookup_insert_eq.
    + apply api_cancel_refusal.
Qed.

(** X11.  [cleanup_old_tasks] drops from the registry exactly the tasks
    older than the limit, whatever their status, and keeps the others as
    they are; the store and the threads are not touched.  A running task
    that was dropped can no longer be cancelled: [cancel_scan] refuses its
    id although its thread goes on. *)
Theorem cleanup_drops_old_tasks
    (current_time max_age_seconds : float) (svc : Service.t) (task_id : string) :
  Service.tasks (cleanup_old_tasks current_time max_age_seconds svc) !! task_id
  = match Service.tasks svc !! task_id with
    | Some task =>
        if expired current_time max_age_seconds task then None else Some task
    | None => None
    end ∧
  Service.scan_tasks (cleanup_old_tasks current_time max_age_seconds svc)
  = Service.scan_tasks svc ∧
  Service.threads (cleanup_old_tasks current_time max_age_seconds svc)
  = Service.threads svc ∧
  (∀ task, Service.tasks svc !! task_id = Some task →
           expired current_time max_age_seconds task = true →
           cancel_scan task_id (cleanup_old_tasks current_time max_age_seconds svc)
           = (cleanup_old_tasks current_time max_age_seconds svc, false)).
Proof.
  assert (Service.tasks (cleanup_old_tasks current_time max_age_seconds svc) !! task_id
          = match Service.tasks svc !! task_id with
            | Some task =>
                if expired current_time max_age_seconds task then None else Some task
            | None => None
            end) as Hlook.
  { unfold cleanup_old_tasks. simpl.
    destruct (Service.tasks svc !! task_id) as [task|] eqn:Hl.
    - destruct (expired current_time max_age_seconds task) eqn:He.
      + apply map_lookup_filter_None. right. intros task' Hl'. simpl.
        rewrite Hl in Hl'. injection Hl' as <-. by rewrite He.
      + apply map_lookup_filter_Some. done.
    - apply map_lookup_filter_None. by left. }
  split_and!; try done.
  intros task Hl He. unfold cancel_scan. rewrite Hlook, Hl, He. done.
Qed.

Example cleanup_drops_running_task :
  ScanTask.status <$> Service.tasks ex_service_old !! "id-0" = Some Status.running ∧
  (cancel_scan "id-0" ex_service_old).2 = true ∧
  (cancel_scan "id-0" (cleanup_old_tasks 4000%float 3600%float ex_service_old)).2 = false.
Proof. split_and!; vm_compute; reflexivity. Qed.

(** ** The progress stream *)

Lemma event_generator_terminal {A : Type} (status_of : A → Status.t) p rest :
  Status.is_terminal (status_of p) = true →
  event_generator status_of (Some p :: rest) = [p].
Proof. intros H. simpl. by rewrite H. Qed.

Lemma event_generator_running {A : Type} (status_of : A → Status.t) p rest :
  Status.is_terminal (status_of p) = false →
  event_generator status_of (Some p :: rest) = p :: event_generator status_of rest.
Proof. intros H. simpl. by rewrite H. Qed.

(** X12.  The progress stream emits the snapshots of the successive polls
    up to the first poll that finds the task gone, which ends the stream
    without an event, or up to and including the first snapshot with a
    terminal status: every emitted snapshot but the last is a running one,
    and nothing is emitted after a terminal one. *)
Theorem event_stream_ends_at_terminal
    {A : Type} (status_of : A → Status.t) (polls : list (option A)) :
  ∃ k, k ≤ length polls ∧
       Some <$> event_generator status_of polls = take k polls ∧
       (∀ i p, event_generator status_of polls !! i = Some p →
               S i < length (event_generator status_of polls) →
               status_of p = Status.running) ∧
       (k < length polls →
        polls !! k = Some None ∨
        ∃ p, last (event_generator status_of polls) = Some p ∧
             Status.is_terminal (status_of p) = true).
Proof.
  induction polls as [|[p|] rest (k & Hk & Htake & Hrun & Hend)].
  - exists 0. simpl. split_and!; [done | done | by intros [] | lia].
  - destruct (Status.is_terminal (status_of p)) eqn:Hterm.
    + rewrite (event_generator_terminal _ _ _ Hterm).
      exists 1. simpl. split_and!; [lia | by rewrite take_0 | | ].
      * intros [|i] q; simpl; [lia | done].
      * intros _. right. by exists p.
    + rewrite (event_generator_running _ _ _ Hterm).
      exists (S k). simpl. split_and!; [lia | by rewrite <- Htake | | ].
      * intros [|i] q; simpl.
        -- intros [= <-] _. by destruct (status_of p).
        -- intros Hq Hlen. apply (Hrun i q Hq). lia.
      * intros Hlt. destruct Hend as [Hgone | (q & Hlast & Hq)]; [lia | by left |].
        right. exists q. split; [|done].
        by destruct (event_generator status_of rest).
  - exists 0. simpl. split_and!; [lia | done | by intros [] | by left].
Qed.

Example event_stream_run :
  event_generator id
    [Some Status.running; Some Status.running; Some Status.cancelled;
     Some Status.cancelled; None]
  = [Status.running; Status.running; Status.cancelled].
Proof. reflexivity. Qed.

(** ** The scheduler: what a run records *)

Lemma Inv2_init task_id stocks now : Inv2 stocks (init_sys task_id stocks now).
Proof.
  constructor; simpl; done.
Qed.

Lemma yielded_all (l : list nat) n i :
  NoDup l → (∀ j, j ∈ l → j < n) → length l = n → i < n → i ∈ l.
Proof.
  intros Hnd Hlt Hlen Hi.
  assert (l ⊆+ seq 0 n) as Hsub.
  { apply NoDup_submseteq; [done|]. intros j Hj. apply elem_of_seq.
    specialize (Hlt j Hj). lia. }
  apply submseteq_length_Permutation in Hsub; [|by rewrite length_seq, Hlen].
  rewrite Hsub. apply elem_of_seq. lia.
Qed.

Lemma flat_map_agree {A B : Type} (f g : A → list B) (l : list A) :
  (∀ x, x ∈ l → f x = g x) → flat_map f l = flat_map g l.
Proof.
  induction l as [|x l IH]; intros H; simpl; [done|].
  rewrite (H x) by by left. rewrite IH; [done|]. intros y Hy. apply H. by right.
Qed.

Lemma unit_result_insert fs i f j :
  i ≠ j → unit_result (<[i := f]> fs) j = unit_result fs j.
Proof. intros Hne. unfold unit_result. by rewrite list_lookup_insert_ne. Qed.

Section RunFacts.
Variable strptime : string -> option Z.
Variable stocks : list string.
Variable request : ScanRequest.t.

Abbreviation step := (step strptime stocks request).
Abbreviation exec := (exec strptime stocks request).
Abbreviation driver_step := (driver_step stocks).

(** Once the status is completed every future is done. *)
Lemma completed_all_done s i g :
  Inv stocks s → Inv2 stocks s →
  ScanTask.status (task s) = Status.completed →
  futures s !! i = Some g → is_done g = true.
Proof.
  intros HI HI2 Hc Hi.
  assert (live s) as Hlive by by right.
  pose proof (inv_status _ _ HI) as Hw. rewrite Hc in Hw. simpl in Hw.
  pose proof (i2_xstatus _ _ HI2) as Hx.
  assert (after_loop (at_pc s) = true) as Hafter.
  { destruct (at_pc s); simpl in *; try done; congruence. }
  pose proof (i2_exhausted _ _ HI2 Hlive Hafter) as Hlen.
  assert (i ∈ yielded s) as Hy.
  { apply (yielded_all _ (length (futures s))); [apply HI | | done |].
    - intros j Hj. destruct (inv_done _ _ HI j Hj) as (?&?&?&Hl).
      by apply lookup_lt_Some in Hl.
    - by apply lookup_lt_Some in Hi. }
  destruct (inv_done _ _ HI i Hy) as (?&?&?&Hl). rewrite Hi in Hl. by injection Hl as ->.
Qed.

Lemma Inv2_set_future s i f g :
  Inv stocks s → Inv2 stocks s → futures s !! i = Some g → is_done g = false →
  Inv2 stocks (set_future i f s).
Proof.
  intros HI HI2 Hi Hg.
  assert (∀ j, j ∈ yielded s → j ≠ i) as Hny.
  { intros j Hj ->. destruct (inv_done _ _ HI i Hj) as (?&?&?&Hl).
    rewrite Hi in Hl. by injection Hl as ->. }
  destruct HI2. constructor; simpl; try done.
  - intros ? ?. rewrite length_insert. auto.
  - intros ? ?. rewrite length_insert. auto.
  - intros Hl. rewrite (i2_results0 Hl).
    apply flat_map_agree. intros j Hj.
    apply list_elem_of_In, in_rev, list_elem_of_In in Hj.
    rewrite unit_result_insert; [done|]. intros Heq. apply (Hny j); [|done].
    unfold recorded in Hj. simpl in Hj. destruct (at_pc s); try done;
      (destruct (yielded s); [by apply elem_of_nil in Hj | by right]).
  - unfold in_hand_ok in *. simpl.
    destruct (at_pc s); try done;
      destruct i2_hand0 as (j & t0 & t1 & Hh & Hl); exists j, t0, t1;
      (split; [done|]); (rewrite list_lookup_insert_ne; [done|]);
      intros Heq; (apply (Hny j); [|done]);
      destruct (yielded s); simplify_eq; by left.
Qed.

Lemma results_after_extend (fs : list future) (ys : list nat) i t0 t1 r :
  head ys = Some i → fs !! i = Some (FDone t0 t1 r) →
  flat_map (unit_result fs) (rev ys)
  = flat_map (unit_result fs) (rev (tail ys)) ++ default [] r.
Proof.
  intros Hh Hi. destruct ys as [|j ys]; [done|]. simpl in Hh. injection Hh as ->.
  simpl. rewrite flat_map_app. simpl. rewrite app_nil_r.
  replace (unit_result fs i) with (default [] r); [done|].
  unfold unit_result. rewrite Hi. by destruct r.
Qed.

Ltac split_hyps :=
  repeat match goal with
    | H : _ ∨ _ |- _ => destruct H
    | H : _ ∧ _ |- _ => destruct H
    | H : ∃ _, _ |- _ => destruct H
    end; simplify_eq.

Ltac feed_hyps :=
  repeat match goal with
    | H : ?P → _ |- _ =>
        match type of P with
        | Prop =>
            let HP := fresh in
            assert P as HP
              by (first [ assumption | reflexivity | discriminate
                        | left; split; assumption | right; assumption
                        | right; reflexivity | congruence ]);
            specialize (H HP); clear HP
        end
    end.

Lemma Inv2_driver_step s s' :
  Inv stocks s → Inv2 stocks s → driver_step s = Some s' → Inv2 stocks s'.
Proof.
  intros HI HI2 Hstep.
  pose proof (Inv_yielded_le _ _ HI) as Hle.
  assert (status_written (at_pc s) = false →
          ScanTask.status (task s) = Status.running) as Hst.
  { intros Hw. pose proof (inv_status _ _ HI) as Ht. rewrite Hw in Ht.
    by destruct (ScanTask.status (task s)). }
  destruct HI, HI2. unfold driver_step, acquire, release in Hstep.
  unfold live, in_hand_ok, recorded in *.
  destruct (at_pc s) eqn:Hpc; simpl in *;
    repeat match type of Hstep with
      | context [if ?c then _ else _] => destruct c eqn:?
      | context [match ?c with _ => _ end] => destruct c eqn:?
      end;
    simplify_eq; constructor; unfold live, in_hand_ok, recorded; simpl;
    try done; try lia;
    try (intros; split_hyps; feed_hyps; split_hyps;
         first [ done | lia | congruence | eauto 6; fail
               | by rewrite length_replicate
               | by apply Nat.eqb_eq ]).
  all: try (exfalso; destruct (inv_done0 _ (inv_handled0 _ eq_refl)) as (?&?&?&?);
            congruence).
  all: try (intros _ Hx; exfalso; by eapply Hx).
  all: try (intros Hl; destruct (inv_submit0 eq_refl) as [Hy _]; rewrite Hy in *;
            by apply i2_results0).
  all: intros Hl; destruct i2_hand0 as (j & t0 & t1 & Hh & Hj);
    rewrite (results_after_extend _ _ _ _ _ _ Hh Hj), <- (i2_results0 Hl); simpl;
    by rewrite ?app_nil_r.
Qed.

Lemma Inv2_step l s s' :
  Inv stocks s → Inv2 stocks s → step l s = Some s' → Inv2 stocks s'.
Proof.
  intros HI HI2 Hstep. destruct l; simpl in Hstep.
  - (* LTick *) simplify_eq. by destruct HI2.
  - (* LStart *)
    destruct (futures s !! i) as [[]|] eqn:Hi; try done.
    destruct (busy_workers s <? MAX_WORKERS); [|done].
    destruct (ScanTask.cancelled (task s)); simplify_eq;
      by eapply Inv2_set_future.
  - (* LMark *)
    destruct (futures s !! i) as [[]|] eqn:Hi; try done.
    destruct (stocks !! i); [|done]. destruct (lock s) eqn:Hl; [done|].
    simplify_eq.
    eapply (Inv2_set_future _ _ _ (FStarted t0)); [| |done..].
    + by destruct HI.
    + pose proof (completed_all_done s i (FStarted t0) HI HI2) as Hdone.
      destruct HI2. constructor; simpl; try done.
      intros Hc _. specialize (Hdone Hc Hi). done.
  - (* LFinish *)
    destruct (futures s !! i) as [[]|] eqn:Hi; try done.
    destruct (stocks !! i); [|done]. simplify_eq.
    by eapply Inv2_set_future.
  - (* LYield *)
    destruct (at_pc s) eqn:Hpc; try done.
    destruct (futures s !! i) as [[]|] eqn:Hi; try done.
    case_bool_decide as Hy; [done|]. simplify_eq.
    assert (ScanTask.status (task s) = Status.running) as Hst.
    { pose proof (inv_status _ _ HI) as Ht. rewrite Hpc in Ht.
      by destruct (ScanTask.status (task s)). }
    destruct HI2. unfold live, in_hand_ok, recorded in *. rewrite Hpc in *.
    constructor; unfold live, in_hand_ok, recorded; simpl in *; try done.
    all: try (intros Hl; specialize (i2_count0 Hl); lia).
    all: try (intros Hl; by apply i2_results0).
    all: intros Hc; by rewrite Hst in Hc.
  - (* LSubmitFail *)
    destruct (at_pc s) eqn:Hpc; try done.
    destruct (k <? length stocks) eqn:Hk; [|done]. simplify_eq.
    destruct (inv_submit _ _ HI Hpc) as [Hy Hp].
    assert (ScanTask.status (task s) = Status.running) as Hst.
    { pose proof (inv_status _ _ HI) as Ht. rewrite Hpc in Ht.
      by destruct (ScanTask.status (task s)). }
    destruct HI2. unfold live, in_hand_ok, recorded in *. rewrite Hpc in *.
    constructor; unfold live, in_hand_ok, recorded; simpl in *; try done.
    all: try (intros Hl; specialize (i2_count0 Hl); lia).
    all: try (intros Hl; rewrite (i2_results0 Hl), Hy; done).
    all: try (intros Hc; by rewrite Hst in Hc).
  - (* LCancelCheck *)
    case_decide; simplify_eq; [by destruct HI2 | done].
  - (* LCancelSet *)
    destruct (cancel_calls s); [done|]. destruct (lock s); [done|].
    simplify_eq. destruct HI2. unfold live, in_hand_ok, recorded in *.
    constructor; unfold live, in_hand_ok, recorded; simpl in *; try done.
    all: intros [[? ?]|Hc]; try done; auto.
  - (* LDriver *) by eapply Inv2_driver_step.
Qed.

Lemma Inv2_exec tr s s' :
  Inv stocks s → Inv2 stocks s → exec tr s = Some s' → Inv2 stocks s'.
Proof.
  revert s. induction tr as [|l tr IH]; intros s HI HI2; simpl.
  - by intros [= <-].
  - destruct (step l s) as [s1|] eqn:Hs; simpl; [|done].
    apply IH; [by eapply Inv_step | by eapply Inv2_step].
Qed.

Lemma Inv2_reachable task_id now tr s :
  exec tr (init_sys task_id stocks now) = Some s → Inv2 stocks s.
Proof. apply Inv2_exec; [apply Inv_init | apply Inv2_init]. Qed.
End RunFacts.

(** X13.  A task that ends completed has accounted for every unit exactly
    once: every future is done, [processed_count] equals [total_count], the
    completions were handed out in some order of all the units, and
    [results] is the concatenation, in that order, of what the units
    returned, with [found_count] its length; no error message is set, and
    once the driver has returned the advisory [current_stock] is cleared. *)
Theorem completed_run_records_every_unit
    (strptime : string → option Z) (stocks : list string) (request : ScanRequest.t)
    (task_id : string) (now : float) (tr : list label) (s : sys) :
  exec strptime stocks request tr (init_sys task_id stocks now) = Some s →
  ScanTask.status (task s) = Status.completed →
  ScanTask.processed_count (task s) = ScanTask.total_count (task s) ∧
  ScanTask.total_count (task s) = length stocks ∧
  (∀ i, i < length stocks → ∃ t0 t1 r, futures s !! i = Some (FDone t0 t1 r)) ∧
  rev (yielded s) ≡ₚ seq 0 (length stocks) ∧
  ScanTask.results (task s) = flat_map (unit_result (futures s)) (rev (yielded s)) ∧
  ScanTask.found_count (task s) = length (ScanTask.results (task s)) ∧
  ScanTask.error_message (task s) = None ∧
  (at_pc s = PDone → ScanTask.current_stock (task s) = None).
Proof.
  intros Hex Hc.
  pose proof (Inv_reachable _ _ _ _ _ _ _ Hex) as HI.
  pose proof (Inv2_reachable _ _ _ _ _ _ _ Hex) as HI2.
  assert (live s) as Hlive by by right.
  pose proof (inv_status _ _ HI) as Hw. rewrite Hc in Hw. simpl in Hw.
  pose proof (i2_xstatus _ _ HI2) as Hx.
  assert (at_pc s = PFinCurrent ∨ at_pc s = PFinUnlock ∨ at_pc s = PDone) as Hpc.
  { destruct (at_pc s); simpl in *; try done; try congruence; eauto. }
  assert (after_loop (at_pc s) = true ∧ in_run (at_pc s) = true ∧ owed (at_pc s) = 0
          ∧ unfound (at_pc s) = 0 ∧ recorded s = yielded s) as (Hal & Hir & How & Huf & Hrec).
  { unfold recorded. by destruct Hpc as [->|[->| ->]]. }
  pose proof (i2_exhausted _ _ HI2 Hlive Hal) as Hlen.
  pose proof (i2_len _ _ HI2 Hir) as Hflen. rewrite Hc in Hflen.
  specialize (Hflen ltac:(done)).
  pose proof (i2_count _ _ HI2 Hlive) as Hcount.
  pose proof (i2_results _ _ HI2 Hlive) as Hres. rewrite Hrec in Hres.
  pose proof (inv_found _ _ HI) as Hfound.
  pose proof (inv_total _ _ HI) as Htot.
  assert (∀ j, j ∈ yielded s → j < length stocks) as Hlt.
  { intros j Hj. destruct (inv_done _ _ HI j Hj) as (?&?&?&Hl).
    apply lookup_lt_Some in Hl. lia. }
  split_and!; try done; try lia.
  - intros i Hi. apply (inv_done _ _ HI).
    apply (yielded_all _ (length stocks)); [apply HI | done | lia | done].
  - rewrite <- Permutation_rev.
    apply submseteq_length_Permutation; [|rewrite length_seq; lia].
    apply NoDup_submseteq; [apply HI|]. intros j Hj. apply elem_of_seq.
    specialize (Hlt j Hj). lia.
  - apply (i2_msg_none _ _ HI2). by rewrite Hc.
  - intros Hd. apply (i2_current _ _ HI2 Hc). by right.
Qed.

Lemma completed_run_records_every_unit_witness :
  ScanTask.processed_count (task ex_final) = ScanTask.total_count (task ex_final) ∧
  ScanTask.total_count (task ex_final) = length ["A"; "B"] ∧
  (∀ i, i < length ["A"; "B"] → ∃ t0 t1 r, futures ex_final !! i = Some (FDone t0 t1 r)) ∧
  rev (yielded ex_final) ≡ₚ seq 0 (length ["A"; "B"]) ∧
  ScanTask.results (task ex_final)
  = flat_map (unit_result (futures ex_final)) (rev (yielded ex_final)) ∧
  ScanTask.found_count (task ex_final) = length (ScanTask.results (task ex_final)) ∧
  ScanTask.error_message (task ex_final) = None ∧
  (at_pc ex_final = PDone → ScanTask.current_stock (task ex_final) = None).
Proof.
  apply (completed_run_records_every_unit strptime_ymd_hm ["A"; "B"]
           (ex_request ["A"; "B"]) "t" 0%float ex_trace_complete ex_final).
  - vm_compute. reflexivity.
  - reflexivity.
Defined.

(** ** The scheduler: what never goes back *)

Lemma monotone_step strptime stocks request l s s' :
  step strptime stocks request l s = Some s' →
  ScanTask.processed_count (task s) ≤ ScanTask.processed_count (task s') ∧
  ScanTask.found_count (task s) ≤ ScanTask.found_count (task s') ∧
  ScanTask.results (task s) `prefix_of` ScanTask.results (task s') ∧
  ScanTask.total_count (task s') = ScanTask.total_count (task s) ∧
  ScanTask.task_id (task s') = ScanTask.task_id (task s) ∧
  clock s ≤ clock s'.
Proof.
  intros Hstep.
  destruct l; simpl in Hstep;
    try (unfold driver_step, acquire, release in Hstep);
    repeat match type of Hstep with
      | context [if ?c then _ else _] => destruct c eqn:?
      | context [match ?c with _ => _ end] => destruct c eqn:?
      end;
    simplify_eq; simpl in *; split_and!; try done; try lia;
    by apply prefix_app_r.
Qed.

(** X14.  Along any run the counters never go back: [processed_count] and
    [found_count] only grow, [results] is only appended to (the earlier
    list is a prefix of the later one), [total_count] and the task id never
    change, and a cancel flag once set stays set. *)
Theorem counters_only_grow
    (strptime : string → option Z) (stocks : list string) (request : ScanRequest.t)
    (tr : list label) (s s' : sys) :
  exec strptime stocks request tr s = Some s' →
  ScanTask.processed_count (task s) ≤ ScanTask.processed_count (task s') ∧
  ScanTask.found_count (task s) ≤ ScanTask.found_count (task s') ∧
  ScanTask.results (task s) `prefix_of` ScanTask.results (task s') ∧
  ScanTask.total_count (task s') = ScanTask.total_count (task s) ∧
  ScanTask.task_id (task s') = ScanTask.task_id (task s) ∧
  (ScanTask.cancelled (task s) = true → ScanTask.cancelled (task s') = true).
Proof.
  revert s. induction tr as [|l tr IH]; intros s; simpl.
  - by intros [= <-].
  - destruct (step strptime stocks request l s) as [s1|] eqn:Hs; simpl; [|done].
    intros Hex. destruct (IH _ Hex) as (H1 & H2 & H3 & H4 & H5 & H6).
    destruct (monotone_step _ _ _ _ _ _ Hs) as (G1 & G2 & G3 & G4 & G5 & _).
    split_and!; try lia; try congruence.
    + by etrans.
    + intros Hc. apply H6. by eapply cancelled_step.
Qed.

Lemma counters_only_grow_witness :
  ScanTask.processed_count (task ex_appended)
  ≤ ScanTask.processed_count (task ex_appended_end) ∧
  ScanTask.found_count (task ex_appended) ≤ ScanTask.found_count (task ex_appended_end) ∧
  ScanTask.results (task ex_appended) `prefix_of` ScanTask.results (task ex_appended_end) ∧
  ScanTask.total_count (task ex_appended_end) = ScanTask.total_count (task ex_appended) ∧
  ScanTask.task_id (task ex_appended_end) = ScanTask.task_id (task ex_appended) ∧
  (ScanTask.cancelled (task ex_appended) = true →
   ScanTask.cancelled (task ex_appended_end) = true).
Proof.
  apply (counters_only_grow strptime_ymd_hm ["A"; "B"] (ex_request ["A"; "B"])
           ex_trace_rest ex_appended ex_appended_end).
  vm_compute. reflexivity.
Defined.

Example appended_run_ends_completed :
  at_pc ex_appended_end = PDone ∧
  ScanTask.status (task ex_appended_end) = Status.completed ∧
  counters ex_appended_end = (2, 1, [ex_item]).
Proof. split_and!; vm_compute; reflexivity. Qed.

(** X15.  Status, cancel flag and error message agree in every state a
    task goes through: the status is cancelled only if the cancel flag is
    set; no error message is set unless the status is error; and, except
    between the two assignments of the outer [except] block
    ([status = "error"], then [error_message = str(e)]), the status is error
    exactly when an error message is set. *)
Theorem status_flag_message_agree
    (strptime : string → option Z) (stocks : list string) (request : ScanRequest.t)
    (task_id : string) (now : float) (tr : list label) (s : sys) :
  exec strptime stocks request tr (init_sys task_id stocks now) = Some s →
  (ScanTask.status (task s) = Status.cancelled → ScanTask.cancelled (task s) = true) ∧
  (ScanTask.status (task s) ≠ Status.error → ScanTask.error_message (task s) = None) ∧
  ((∀ msg, at_pc s ≠ PXMsg msg) →
   (ScanTask.status (task s) = Status.error ↔ is_Some (ScanTask.error_message (task s)))).
Proof.
  intros Hex.
  pose proof (Inv2_reachable _ _ _ _ _ _ _ Hex) as HI2.
  split_and!.
  - apply HI2.
  - apply HI2.
  - intros Hpc. split.
    + intros He. by apply (i2_msg_some _ _ HI2 He).
    + intros [m Hm]. destruct (decide (ScanTask.status (task s) = Status.error)); [done|].
      rewrite (i2_msg_none _ _ HI2) in Hm; done.
Qed.

Lemma status_flag_message_agree_witness :
  (ScanTask.status (task ex_error_end) = Status.cancelled →
   ScanTask.cancelled (task ex_error_end) = true) ∧
  (ScanTask.status (task ex_error_end) ≠ Status.error →
   ScanTask.error_message (task ex_error_end) = None) ∧
  ((∀ msg, at_pc ex_error_end ≠ PXMsg msg) →
   (ScanTask.status (task ex_error_end) = Status.error ↔
    is_Some (ScanTask.error_message (task ex_error_end)))).
Proof.
  apply (status_flag_message_agree strptime_ymd_hm ["A"; "B"] (ex_request ["A"; "B"])
           "t" 0%float ex_trace_submit_fails ex_error_end).
  vm_compute. reflexivity.
Defined.

Example submit_failure_ends_in_error :
  at_pc ex_error_end = PDone ∧
  ScanTask.status (task ex_error_end) = Status.error ∧
  ScanTask.error_message (task ex_error_end)
  = Some "cannot schedule new futures after shutdown" ∧
  counters ex_error_end = (0, 0, []).
Proof. split_and!; vm_compute; reflexivity. Qed.

(** ** The scheduler: where result rows come from *)

Lemma canonical_type_requested bsp_types raw_type :
  type_matched bsp_types (bsp_type_values raw_type) = true →
  canonical_type bsp_types raw_type ∈ bsp_types.
Proof.
  intros Hm. unfold canonical_type.
  destruct (1 <? length (bsp_type_values raw_type)) eqn:Hlen.
  - destruct (first_requested_matched _ _ Hm) as [t Ht]. rewrite Ht. simpl.
    by apply first_requested_Some in Ht as [? _].
  - apply Nat.ltb_ge in Hlen.
    destruct (bsp_type_values raw_type) as [|v [|w vals]]; simpl in *; [done| |lia].
    rewrite orb_false_r in Hm. by apply str_in_true.
Qed.

Lemma scan_body_rows strptime engine now code request stocks l :
  scan_body strptime engine now code request = Some l →
  code ∈ stocks →
  l ≠ [] ∧ Forall (item_ok stocks request) l ∧
  Forall (fun it => ScanResultItem.code it = code) l.
Proof.
  rewrite scan_body_pure.
  destruct engine as [result|]; [|done].
  destruct (cutoff_time now (ScanRequest.time_window_days request)) as [cutoff|]; [|done].
  destruct (List.filter _ _) as [|p0 ps] eqn:Hk; [done|]. intros [= <-] Hcode.
  assert (∀ p, p ∈ p0 :: ps →
               point_kept strptime (ScanRequest.bsp_types request) cutoff p = true)
    as Hkept.
  { intros p Hp. rewrite <- Hk in Hp. apply list_elem_of_In, filter_In in Hp. tauto. }
  split; [done|].
  set (F := item_of_point code (ChanResponse.name result)
              (ScanRequest.kline_type request) (ScanRequest.bsp_types request)).
  change (F p0 :: map F ps) with (map F (p0 :: ps)).
  split; apply Forall_forall; intros it Hit;
    apply list_elem_of_In, in_map_iff in Hit as (p & <- & Hp%list_elem_of_In); [|done].
  specialize (Hkept p Hp). unfold point_kept in Hkept.
  apply andb_true_iff in Hkept as [[Hbuy Hm]%andb_true_iff _].
  split_and!; simpl; try done. by apply canonical_type_requested.
Qed.

Lemma Inv3_init task_id stocks request now :
  Inv3 stocks request (init_sys task_id stocks now).
Proof. constructor; simpl; [by intros [] | constructor]. Qed.

Section RowFacts.
Variable strptime : string -> option Z.
Variable stocks : list string.
Variable request : ScanRequest.t.

Abbreviation step := (step strptime stocks request).
Abbreviation exec := (exec strptime stocks request).
Abbreviation driver_step := (driver_step stocks).

Lemma Inv3_set_future s i r t0 t1 :
  Inv3 stocks request s →
  (∀ l, r = Some l →
        l ≠ [] ∧ Forall (item_ok stocks request) l ∧
        Forall (fun it => stocks !! i = Some (ScanResultItem.code it)) l) →
  Inv3 stocks request (set_future i (FDone t0 t1 r) s).
Proof.
  intros [Hf Hr] Hnew. constructor; simpl; [|done].
  intros j u0 u1 l Hl.
  destruct (decide (i = j)) as [->|Hne].
  - apply list_lookup_insert_Some in Hl as [(_ & Heq & _)|[? _]]; [|done].
    injection Heq as -> -> ->. by apply Hnew.
  - rewrite list_lookup_insert_ne in Hl by done. by eapply Hf.
Qed.

Lemma Inv3_set_future_open s i f :
  Inv3 stocks request s → is_done f = false →
  Inv3 stocks request (set_future i f s).
Proof.
  intros [Hf Hr] Hopen. constructor; simpl; [|done].
  intros j u0 u1 l Hl.
  destruct (decide (i = j)) as [->|Hne].
  - apply list_lookup_insert_Some in Hl as [(_ & Heq & _)|[? _]]; [|done].
    by subst f.
  - rewrite list_lookup_insert_ne in Hl by done. by eapply Hf.
Qed.

Lemma Inv3_step l s s' :
  Inv2 stocks s → Inv3 stocks request s → step l s = Some s' →
  Inv3 stocks request s'.
Proof.
  intros HI2 HI3 Hstep. destruct l; simpl in Hstep.
  - (* LTick *) simplify_eq. by destruct HI3.
  - (* LStart *)
    destruct (futures s !! i) as [[]|]; try done.
    destruct (busy_workers s <? MAX_WORKERS); [|done].
    destruct (ScanTask.cancelled (task s)); simplify_eq.
    + by apply Inv3_set_future.
    + by apply Inv3_set_future_open.
  - (* LMark *)
    destruct (futures s !! i) as [[]|]; try done.
    destruct (stocks !! i); [|done]. destruct (lock s); [done|]. simplify_eq.
    apply Inv3_set_future_open; [|done]. by destruct HI3.
  - (* LFinish *)
    destruct (futures s !! i) as [[]|]; try done.
    destruct (stocks !! i) as [code|] eqn:Hcode; [|done]. simplify_eq.
    apply Inv3_set_future; [done|]. intros l Hl.
    destruct (scan_body_rows _ _ _ _ _ stocks _ Hl) as (Hne & Hok & Hc).
    { by eapply list_elem_of_lookup_2. }
    split_and!; try done.
    eapply Forall_impl; [exact Hc|]. intros it ->. done.
  - (* LYield *)
    destruct (at_pc s); try done.
    destruct (futures s !! i) as [[]|]; try done.
    case_bool_decide; [done|]. simplify_eq. by destruct HI3.
  - (* LSubmitFail *)
    destruct (at_pc s); try done.
    destruct (k <? length stocks); [|done]. simplify_eq.
    destruct HI3. constructor; simpl; [|done].
    intros i t0 t1 l Hl. by apply lookup_replicate in Hl as [? _].
  - (* LCancelCheck *)
    case_decide; simplify_eq; [by destruct HI3 | done].
  - (* LCancelSet *)
    destruct (cancel_calls s); [done|]. destruct (lock s); [done|].
    simplify_eq. by destruct HI3.
  - (* LDriver *)
    pose proof (i2_hand _ _ HI2) as Hhand. unfold in_hand_ok in Hhand.
    destruct HI3 as [Hf Hr].
    unfold driver_step, acquire, release in Hstep.
    destruct (at_pc s) eqn:Hpc; simpl in *;
      repeat match type of Hstep with
        | context [if ?c then _ else _] => destruct c eqn:?
        | context [match ?c with _ => _ end] => destruct c eqn:?
        end;
      simplify_eq; constructor; simpl; try done.
    + intros i t0 t1 l Hl. by apply lookup_replicate in Hl as [? _].
    + destruct Hhand as (i & t0 & t1 & _ & Hi).
      apply Forall_app. split; [done|]. by apply (Hf _ _ _ _ Hi).
Qed.

Lemma Inv3_exec tr s s' :
  Inv stocks s → Inv2 stocks s → Inv3 stocks request s → exec tr s = Some s' →
  Inv3 stocks request s'.
Proof.
  revert s. induction tr as [|l tr IH]; intros s HI HI2 HI3; simpl.
  - by intros [= <-].
  - destruct (step l s) as [s1|] eqn:Hs; simpl; [|done].
    apply IH; [by eapply Inv_step | by eapply Inv2_step | by eapply Inv3_step].
Qed.
End RowFacts.

(** X16.  Every row in the results of a task comes from this scan: it
    names one of the scanned stocks, is a buy point, carries one of the
    requested types and the requested kline type.  A unit that returns rows
    returns at least one, and the rows of the unit for stock [i] carry the
    code of stock [i]. *)
Theorem results_are_rows_of_the_scan
    (strptime : string → option Z) (stocks : list string) (request : ScanRequest.t)
    (task_id : string) (now : float) (tr : list label) (s : sys) :
  exec strptime stocks request tr (init_sys task_id stocks now) = Some s →
  Forall (item_ok stocks request) (ScanTask.results (task s)) ∧
  ∀ i t0 t1 l,
    futures s !! i = Some (FDone t0 t1 (Some l)) →
    l ≠ [] ∧ Forall (fun it => stocks !! i = Some (ScanResultItem.code it)) l.
Proof.
  intros Hex.
  assert (Inv3 stocks request s) as [Hf Hr].
  { eapply Inv3_exec; [apply Inv_init | apply Inv2_init | apply Inv3_init | exact Hex]. }
  split; [done|]. intros i t0 t1 l Hl. by destruct (Hf _ _ _ _ Hl) as (? & _ & ?).
Qed.

Lemma results_are_rows_of_the_scan_witness :
  Forall (item_ok ["A"; "B"] (ex_request ["A"; "B"])) (ScanTask.results (task ex_final)) ∧
  ∀ i t0 t1 l,
    futures ex_final !! i = Some (FDone t0 t1 (Some l)) →
    l ≠ [] ∧ Forall (fun it => ["A"; "B"] !! i = Some (ScanResultItem.code it)) l.
Proof.
  apply (results_are_rows_of_the_scan strptime_ymd_hm ["A"; "B"] (ex_request ["A"; "B"])
           "t" 0%float ex_trace_complete ex_final).
  vm_compute. reflexivity.
Defined.

(** ** The scheduler: the driver returns *)

Lemma exists_unyielded (ys : list nat) n :
  NoDup ys → length ys < n → ∃ i, i < n ∧ i ∉ ys.
Proof.
  intros Hnd Hlen.
  destruct (decide (Forall (fun i => i ∈ ys) (seq 0 n))) as [Hall|Hex].
  - assert (seq 0 n ⊆+ ys) as Hsub.
    { apply NoDup_submseteq; [apply NoDup_seq|]. by apply Forall_forall. }
    apply submseteq_length in Hsub. rewrite length_seq in Hsub. lia.
  - apply not_Forall_Exists in Hex; [|apply _].
    apply Exists_exists in Hex as (i & Hi & Hni).
    exists i. apply elem_of_seq in Hi. split; [lia | done].
Qed.

Section DriverReturns.
Variable strptime : string -> option Z.
Variable stocks : list string.
Variable request : ScanRequest.t.

Abbreviation step := (step strptime stocks request).
Abbreviation exec := (exec strptime stocks request).

Lemma driver_labels_replicate n : forallb driver_label (replicate n LDriver) = true.
Proof. induction n; simpl; done. Qed.

(** From behind the loop, or from the outer [except], the driver runs to
    its end. *)
Lemma finish_from s :
  Inv stocks s → after_loop (at_pc s) = true ∨ in_run (at_pc s) = false →
  at_pc s ≠ PSubmit →
  ∃ n s', exec (replicate n LDriver) s = Some s' ∧ at_pc s' = PDone.
Proof.
  intros HI Hpc Hns. pose proof (inv_lock _ _ HI) as Hl.
  destruct s as [k lk fs ys p c n0]. simpl in *.
  destruct p; simpl in *; try (by destruct Hpc); subst lk.
  - exists 4. eexists. split; [reflexivity | done].
  - exists 3. eexists. split; [reflexivity | done].
  - exists 2. eexists. split; [reflexivity | done].
  - exists 1. eexists. split; [reflexivity | done].
  - exists 4. eexists. split; [reflexivity | done].
  - exists 3. eexists. split; [reflexivity | done].
  - exists 2. eexists. split; [reflexivity | done].
  - exists 1. eexists. split; [reflexivity | done].
  - exists 0. eexists. split; [reflexivity | done].
Qed.

(** From inside the loop body the driver comes back to [as_completed], or
    breaks out and runs to its end. *)
Lemma body_to_head s :
  Inv stocks s → body_pc (at_pc s) = true ∨ (∃ i, at_pc s = PCheck i) →
  ∃ n s', exec (replicate n LDriver) s = Some s' ∧
          (at_pc s' = PNext ∨ at_pc s' = PDone) ∧
          futures s' = futures s ∧ yielded s' = yielded s.
Proof.
  intros HI Hpc. pose proof (inv_lock _ _ HI) as Hl.
  pose proof (inv_except _ _ HI) as Hex.
  pose proof (inv_done _ _ HI) as Hdone. pose proof (inv_handled _ _ HI) as Hh.
  destruct s as [k lk fs ys p c n0]. simpl in *.
  assert (∀ r : option (list ScanResultItem.t),
            (∃ x l, r = Some (x :: l)) ∨ r = None ∨ r = Some []) as Hcases.
  { intros [[|x l]|]; eauto. }
  destruct p; simpl in *; try done; try (by destruct Hpc as [?|[? ?]]); subst lk.
  - (* PCheck *)
    destruct (Hdone i (Hh i eq_refl)) as (t0 & t1 & r & Hi).
    destruct (ScanTask.cancelled k) eqn:Hc.
    + exists 5. eexists. split; [simpl; unfold driver_step; simpl; rewrite Hc; reflexivity|].
      simpl. auto.
    + destruct (Hcases r) as [(x & l & ->)|[-> | ->]].
      * exists 7. eexists.
        split; [simpl; unfold driver_step; simpl; rewrite Hc; simpl;
                unfold driver_step; simpl; rewrite Hi; reflexivity|]. simpl. auto.
      * exists 6. eexists.
        split; [simpl; unfold driver_step; simpl; rewrite Hc; simpl;
                unfold driver_step; simpl; rewrite Hi; reflexivity|]. simpl. auto.
      * exists 6. eexists.
        split; [simpl; unfold driver_step; simpl; rewrite Hc; simpl;
                unfold driver_step; simpl; rewrite Hi; reflexivity|]. simpl. auto.
  - (* PResult *)
    destruct (Hdone i (Hh i eq_refl)) as (t0 & t1 & r & Hi).
    destruct (Hcases r) as [(x & l & ->)|[-> | ->]].
    + exists 6. eexists.
      split; [simpl; unfold driver_step; simpl; rewrite Hi; reflexivity|]. simpl. auto.
    + exists 5. eexists.
      split; [simpl; unfold driver_step; simpl; rewrite Hi; reflexivity|]. simpl. auto.
    + exists 5. eexists.
      split; [simpl; unfold driver_step; simpl; rewrite Hi; reflexivity|]. simpl. auto.
  - (* PLock *)
    destruct (Hcases r) as [(x & l & ->)|[-> | ->]];
      [exists 5 | exists 4 | exists 4]; eexists; (split; [reflexivity | simpl; auto]).
  - (* PInc *)
    destruct (Hcases r) as [(x & l & ->)|[-> | ->]];
      [exists 4 | exists 3 | exists 3]; eexists; (split; [reflexivity | simpl; auto]).
  - (* PExtend *)
    destruct (Hcases r) as [(x & l & ->)|[-> | ->]];
      [exists 3 | exists 2 | exists 2]; eexists; (split; [reflexivity | simpl; auto]).
  - (* PFound *) exists 2. eexists. split; [reflexivity | simpl; auto].
  - (* PUnlock *) exists 1. eexists. split; [reflexivity | simpl; auto].
Qed.

(** With every unit back, the loop hands out what is left and ends. *)
Lemma drain_from_head m s :
  Inv stocks s → at_pc s = PNext → all_done s →
  length (futures s) - length (yielded s) = m →
  ∃ tr s', forallb driver_label tr = true ∧ exec tr s = Some s' ∧ at_pc s' = PDone.
Proof.
  revert s. induction m as [|m IH]; intros s HI Hpc Hall Hm.
  - pose proof (Inv_yielded_le _ _ HI) as Hle.
    assert (length (yielded s) = length (futures s)) as Hlen by lia.
    assert (exec [LDriver] s = Some (goto PFinLock s)) as Hstep.
    { simpl. unfold driver_step. rewrite Hpc, Hlen, Nat.eqb_refl. done. }
    destruct (finish_from (goto PFinLock s)) as (n & s' & Hex & Hd);
      [by eapply Inv_exec | by left | done |].
    exists ([LDriver] ++ replicate n LDriver), s'. split_and!; [|
      by rewrite exec_app, Hstep | done].
    simpl. apply driver_labels_replicate.
  - destruct (exists_unyielded (yielded s) (length (futures s))) as (i & Hi & Hni);
      [apply HI | lia |].
    destruct (lookup_lt_is_Some_2 _ _ Hi) as [g Hg].
    pose proof (Hall i g Hg) as Hdg. destruct g as [| | |t0 t1 r]; try done.
    assert (exec [LYield i] s
            = Some (goto (PCheck i) (with_yielded (i :: yielded s) s))) as Hstep.
    { simpl. rewrite Hpc, Hg. by rewrite bool_decide_eq_false_2. }
    set (s1 := goto (PCheck i) (with_yielded (i :: yielded s) s)) in *.
    assert (Inv stocks s1) as HI1 by by eapply Inv_exec.
    destruct (body_to_head s1 HI1) as (n & s2 & Hex2 & Hpc2 & Hf2 & Hy2);
      [right; by exists i|].
    assert (Inv stocks s2) as HI2 by by eapply Inv_exec.
    destruct Hpc2 as [Hnext|Hdone].
    + destruct (IH s2 HI2 Hnext) as (tr & s' & Hlab & Hex3 & Hd).
      * intros j g. rewrite Hf2. apply Hall.
      * rewrite Hf2, Hy2. simpl. lia.
      * exists ([LYield i] ++ replicate n LDriver ++ tr), s'. split_and!; [| |done].
        -- simpl. rewrite forallb_app, driver_labels_replicate. done.
        -- by rewrite exec_app, Hstep; simpl; rewrite exec_app, Hex2.
    + exists ([LYield i] ++ replicate n LDriver), s2. split_and!; [| |done].
      * simpl. apply driver_labels_replicate.
      * by rewrite exec_app, Hstep.
Qed.
End DriverReturns.

(** X17.  Once the futures are submitted and every unit has returned, the
    driver needs nothing but its own steps to end the task: from any state
    it can be in, finitely many steps of the driver alone bring it to its
    end with a terminal status.  (A unit that never returns blocks it,
    there being no timeout that would fire.) *)
Theorem driver_returns_when_units_are_done
    (strptime : string → option Z) (stocks : list string) (request : ScanRequest.t)
    (task_id : string) (now : float) (tr0 : list label) (s : sys) :
  exec strptime stocks request tr0 (init_sys task_id stocks now) = Some s →
  at_pc s ≠ PSubmit → all_done s →
  ∃ tr s',
    forallb driver_label tr = true ∧
    exec strptime stocks request tr s = Some s' ∧
    at_pc s' = PDone ∧
    Status.is_terminal (ScanTask.status (task s')) = true.
Proof.
  intros Hex Hns Hall.
  pose proof (Inv_reachable _ _ _ _ _ _ _ Hex) as HI.
  assert (∃ tr s', forallb driver_label tr = true ∧
                   exec strptime stocks request tr s = Some s' ∧ at_pc s' = PDone)
    as (tr & s' & Hlab & Hex' & Hd).
  { assert (at_pc s = PNext ∨ at_pc s = PDone
            ∨ (after_loop (at_pc s) = true ∨ in_run (at_pc s) = false)
            ∨ (body_pc (at_pc s) = true ∨ ∃ i, at_pc s = PCheck i)) as Hcase.
    { destruct (at_pc s); simpl;
        first [ by left | by (right; left) | by (right; right; left; left)
              | by (right; right; left; right) | by (right; right; right; left)
              | by (right; right; right; right; eexists) ]. }
    destruct Hcase as [Hpc|[Hpc|[Hpc|Hpc]]].
    - by apply (drain_from_head strptime stocks request _ s HI Hpc Hall eq_refl).
    - exists [], s. done.
    - destruct (finish_from strptime stocks request s HI Hpc Hns) as (n & s' & ? & ?).
      exists (replicate n LDriver), s'. split_and!; [apply driver_labels_replicate|done..].
    - destruct (body_to_head strptime stocks request s HI Hpc)
        as (n & s1 & Hex1 & Hpc1 & Hf1 & Hy1).
      pose proof (Inv_exec _ _ _ _ _ _ HI Hex1) as HI1.
      destruct Hpc1 as [Hnext|Hdone].
      + destruct (drain_from_head strptime stocks request
                    (length (futures s1) - length (yielded s1)) s1 HI1 Hnext)
          as (tr & s' & Hlab & Hex2 & Hd); [|reflexivity|].
        * intros j g. rewrite Hf1. apply Hall.
        * exists (replicate n LDriver ++ tr), s'. split_and!; [| |done].
          -- by rewrite forallb_app, driver_labels_replicate.
          -- by rewrite exec_app, Hex1.
      + exists (replicate n LDriver), s1.
        split_and!; [apply driver_labels_replicate|done..]. }
  exists tr, s'. split_and!; try done.
  pose proof (Inv_exec _ _ _ _ _ _ HI Hex') as HI'.
  by rewrite (inv_status _ _ HI'), Hd.
Qed.

Lemma driver_returns_when_units_are_done_witness :
  ∃ tr s',
    forallb driver_label tr = true ∧
    exec strptime_ymd_hm ["A"; "B"] (ex_request ["A"; "B"]) tr ex_all_back = Some s' ∧
    at_pc s' = PDone ∧
    Status.is_terminal (ScanTask.status (task s')) = true.
Proof.
  apply (driver_returns_when_units_are_done strptime_ymd_hm ["A"; "B"]
           (ex_request ["A"; "B"]) "t" 0%float ex_trace_all_back ex_all_back).
  - vm_compute. reflexivity.
  - discriminate.
  - intros [|[|i]] g; simpl; intros [= <-]; reflexivity.
Defined.
